(** * goog.i18n.messages: declareIcuTemplate and its uncompiled checks

    A shallow embedding of [closure/goog/i18n/messages.js].

    - JavaScript values are an inductive type carrying what the module
      observes of them: [typeof], truthiness, own property keys and
      property reads.
    - The two regular expression literals are terms of a small regex
      syntax, run by a backtracking matcher written in the
      continuation style of the ECMAScript specification.
    - The module-level [ICU_PLACEHOLDER_GLOBAL_RE] carries the [g] flag,
      so its [lastIndex] is mutable state shared by all calls; every
      function is a computation in a state-and-exception monad over that
      [lastIndex]. *)

From stdpp Require Import gmap strings list.
From Stdlib Require Import Ascii String.

Set Warnings "-clear-no-such-hyp".

Open Scope string_scope.
Open Scope list_scope.

(** ** Strings *)

(** Strings are sequences of characters; [+:+] is concatenation.  The
    two regular expressions of the module tell apart only ASCII
    characters: every other character is, to both of them, a character
    that is neither a brace, a dollar sign, a letter, a digit nor an
    underscore, as the characters from 128 on are here. *)

Fixpoint drop_str (n : nat) (s : string) : string :=
  match n, s with
  | S n', String _ s' => drop_str n' s'
  | _, _ => s
  end.

(** The double quote character, for the message patterns. *)
Definition dquote : string := String "034"%char EmptyString.

(** ** JavaScript values *)

(** Numbers are observed only through [typeof] and truthiness, so the
    integers and [NaN] stand for them.  Arrays are objects whose keys are
    their indices; objects without enumerable own properties (a [Date],
    a [Map]) are objects without keys. *)
#[warnings="-register-all"]
Inductive value : Type :=
| VUndefined
| VNull
| VBool (b : bool)
| VNumber (n : Z)
| VNaN
| VBigInt (n : Z)
| VString (s : string)
| VSymbol
| VObject (props : list (string * value))
| VFunction.

(** An object is the list of its own enumerable string-keyed properties,
    in the order in which [Object.keys] enumerates them. *)
Definition obj : Type := list (string * value).

Definition typeof (v : value) : string :=
  match v with
  | VUndefined => "undefined"
  | VNull => "object"
  | VBool _ => "boolean"
  | VNumber _ | VNaN => "number"
  | VBigInt _ => "bigint"
  | VString _ => "string"
  | VSymbol => "symbol"
  | VObject _ => "object"
  | VFunction => "function"
  end.

(** ToBoolean *)
Definition truthy (v : value) : bool :=
  match v with
  | VUndefined | VNull | VNaN => false
  | VBool b => b
  | VNumber n | VBigInt n => negb (n =? 0)%Z
  | VString s => negb (s =? "")%string
  | VSymbol | VObject _ | VFunction => true
  end.

(** [o.k] and [o[k]]: the value of the property, [undefined] when the
    object has no such property. *)
Fixpoint get (o : obj) (k : string) : value :=
  match o with
  | [] => VUndefined
  | (k', v) :: o' => if (k' =? k)%string then v else get o' k
  end.

Definition Object_keys (o : obj) : list string := map fst o.

(** ** Regular expressions *)

Module RegExp.

Definition charset : Type := ascii -> bool.

Definition code (c : ascii) : nat := nat_of_ascii c.

Definition range (lo hi : ascii) : charset :=
  fun c => ((code lo <=? code c) && (code c <=? code hi))%nat.

Definition single (a : ascii) : charset := fun c => Ascii.eqb a c.

Definition union (cs1 cs2 : charset) : charset := fun c => cs1 c || cs2 c.

(** [[^...]] *)
Definition negated (cs : charset) : charset := fun c => negb (cs c).

(** [\w] *)
Definition word : charset :=
  union (range "a" "z") (union (range "A" "Z") (union (range "0" "9") (single "_"))).

Definition toUpperCase (c : ascii) : ascii :=
  if range "a" "z" c then ascii_of_nat (code c - 32) else c.

Definition toLowerCase (c : ascii) : ascii :=
  if range "A" "Z" c then ascii_of_nat (code c + 32) else c.

(** The [i] flag: a character belongs to a class when its canonical
    (upper case) form is that of a member.  Without the [u] flag a
    character outside ASCII never canonicalizes to an ASCII one, so for
    classes of ASCII characters only the two cases of the character
    itself matter.  The pattern characters of the module, the braces
    and the dollar sign, have one case only: [Chr] needs no flag. *)
Definition ignoreCase (cs : charset) : charset :=
  fun c => cs c || cs (toLowerCase c) || cs (toUpperCase c).

Inductive regex : Type :=
| Chr (c : ascii)             (* a pattern character, escaped or not *)
| Cls (cs : charset)          (* a character class *)
| Star (cs : charset)         (* class*, greedy *)
| Plus (cs : charset)         (* class+, greedy *)
| Group (r : regex)           (* ( r ), capturing group 1 *)
| Seq (r1 r2 : regex).

(** Start and end index of capturing group 1, once it has matched. *)
Definition captures : Type := option (nat * nat).

(** A match state: the end index reached and the captures. *)
Definition state : Type := (nat * captures)%type.

(** A continuation gets the rest of the input, the index reached and
    the captures so far. *)
Definition continuation : Type := string -> nat -> captures -> option state.

(** Greedy repetition of a one-character atom: first one more
    iteration, and only when the rest then fails, the continuation. *)
Fixpoint repeat (cs : charset) (s : string) (i : nat) (cap : captures)
    (k : continuation) : option state :=
  match s with
  | String c s' =>
      if cs c then
        match repeat cs s' (S i) cap k with
        | Some st => Some st
        | None => k s i cap
        end
      else k s i cap
  | EmptyString => k s i cap
  end.

Fixpoint matcher (r : regex) (s : string) (i : nat) (cap : captures)
    (k : continuation) : option state :=
  match r with
  | Chr c =>
      match s with
      | String c' s' => if Ascii.eqb c c' then k s' (S i) cap else None
      | EmptyString => None
      end
  | Cls cs =>
      match s with
      | String c' s' => if cs c' then k s' (S i) cap else None
      | EmptyString => None
      end
  | Star cs => repeat cs s i cap k
  | Plus cs =>
      match s with
      | String c' s' => if cs c' then repeat cs s' (S i) cap k else None
      | EmptyString => None
      end
  | Group r' => matcher r' s i cap (fun s' j _ => k s' j (Some (i, j)))
  | Seq r1 r2 => matcher r1 s i cap (fun s' j cap' => matcher r2 s' j cap' k)
  end.

(** One attempt to match the whole pattern at index [i], where [s] is
    the input from [i] on. *)
Definition match_at (r : regex) (s : string) (i : nat) : option state :=
  matcher r s i None (fun _ j cap => Some (j, cap)).

(** The loop of RegExpBuiltinExec: try index [i], then [i + 1], ...,
    up to and including the length of the input. *)
Fixpoint scan (r : regex) (s : string) (i : nat) : option (nat * state) :=
  match match_at r s i with
  | Some st => Some (i, st)
  | None =>
      match s with
      | String _ s' => scan r s' (S i)
      | EmptyString => None
      end
  end.

(** The match array: [match.index], [match[0]] and [match[1]]. *)
Record match_array : Type := MatchArray {
  index : nat;
  whole : string;
  group1 : option string   (* [undefined] when the group took no part *)
}.

Definition make_array (S : string) (found : nat * state) : match_array :=
  let '(i, (e, cap)) := found in
  {| index := i;
     whole := substring i (e - i) S;
     group1 := match cap with
               | Some (b, e1) => Some (substring b (e1 - b) S)
               | None => None
               end |}.

(** [exec] of a regex without the [g] flag: the search starts at 0 and
    [lastIndex] is not used. *)
Definition exec (r : regex) (S : string) : option match_array :=
  option_map (make_array S) (scan r S 0).

(** [exec] of a regex with the [g] flag: the search starts at
    [lastIndex]; a match moves [lastIndex] to its end, a failure resets
    it to 0.  Returns the match and the new [lastIndex]. *)
Definition exec_global (r : regex) (S : string) (lastIndex : nat)
    : option match_array * nat :=
  if (String.length S <? lastIndex)%nat then (None, 0)
  else
    match scan r (drop_str lastIndex S) lastIndex with
    | Some found => (Some (make_array S found), fst (snd found))
    | None => (None, 0)
    end.

End RegExp.

Import RegExp.

Declare Scope regex_scope.
Delimit Scope regex_scope with regex.
Infix ">>" := Seq (at level 60, right associativity) : regex_scope.

(** ** Failures and module state *)

(** What [goog.asserts.assert] is handed when its condition fails: the
    message pattern and the values for its [%s] holes. *)
Record AssertionError : Type := {
  messagePattern : string;
  messageArgs : list value
}.

(** The [lastIndex] property of [ICU_PLACEHOLDER_GLOBAL_RE], the only
    mutable state of the module.  It is 0 when the module is loaded. *)
Definition lastIndex : Type := nat.

Definition initial : lastIndex := 0.

Inductive outcome (A : Type) : Type :=
| Return (a : A)
| Throw (e : AssertionError)
| OutOfFuel.

Arguments Return {A} a.
Arguments Throw {A} e.
Arguments OutOfFuel {A}.

(** A computation reads and writes [lastIndex] and returns or throws;
    what it wrote before throwing stays written. *)
Definition M (A : Type) : Type := lastIndex -> outcome A * lastIndex.

Definition ret {A} (a : A) : M A := fun li => (Return a, li).

Definition bind {A B} (m : M A) (f : A -> M B) : M B :=
  fun li =>
    match m li with
    | (Return a, li') => f a li'
    | (Throw e, li') => (Throw e, li')
    | (OutOfFuel, li') => (OutOfFuel, li')
    end.

Notation "x <- m ;; k" := (bind m (fun x => k))
  (at level 100, m at next level, right associativity,
   format "'[v' x  <-  m  ;;  '/' k ']'").
Notation "m ;; k" := (bind m (fun _ => k))
  (at level 100, right associativity, format "'[v' m  ;;  '/' k ']'").

(** [for (const x of xs) body] *)
Fixpoint for_of {A} (xs : list A) (body : A -> M unit) : M unit :=
  match xs with
  | [] => ret tt
  | x :: xs' => body x ;; for_of xs' body
  end.

(** Modelled from the spec: [goog.asserts.assert] is required from
    [goog.asserts], which is not part of these sources.  The spec has
    every violation reported through a single uniform assertion-style
    failure channel, carrying a message that names the rule violated
    and the offending value: a failed condition throws, a true one does
    nothing. *)
Definition assert (condition : bool) (message : string) (args : list value)
    : M unit :=
  fun li =>
    if condition then (Return tt, li)
    else (Throw {| messagePattern := message; messageArgs := args |}, li).

(** ** The module *)

Definition quoted_hole : string := dquote +:+ "%s" +:+ dquote.

Definition MSG_NO_DESCRIPTION : string := "no description supplied".
Definition MSG_INVALID_DESCRIPTION : string := "invalid description: " +:+ quoted_hole.
Definition MSG_INVALID_MEANING : string := "invalid meaning: " +:+ quoted_hole.
Definition MSG_INVALID_EXAMPLE_MAP : string := "invalid example map: " +:+ quoted_hole.
Definition MSG_INVALID_ORIGINAL_CODE_MAP : string :=
  "invalid original_code map: " +:+ quoted_hole.
Definition MSG_UNKNOWN_OPTION : string := "unknown option name: " +:+ quoted_hole.
Definition MSG_UNKNOWN_PLACEHOLDER : string := "%s: unknown placeholder: " +:+ quoted_hole.
Definition MSG_INVALID_VALUE : string := "invalid %s value for %s: " +:+ quoted_hole.
Definition MSG_CLOSURE_PLACEHOLDER : string :=
  "closure-style placeholder: " +:+ quoted_hole +:+ " found in ICU template: "
  +:+ quoted_hole.

(** The options bag: at run time any object, whose fields the checks
    below inspect. *)
Definition IcuTemplateOptions : Type := obj.

Definition VALID_OPTIONS : gset string :=
  {[ "description"; "meaning"; "example"; "original_code" ]}.

(** [allPlaceholderNames.has(x)], [VALID_OPTIONS.has(x)] *)
Definition has (set : gset string) (x : string) : bool := bool_decide (x ∈ set).

(** The literal [/\{\$( [^}]+ )}/] (written here with spaces inside the
    group). *)
Definition CLOSURE_PLACEHOLDER_RE : regex :=
  (Chr "{" >> Chr "$" >> Group (Plus (negated (single "}"))) >> Chr "}")%regex.

(** The literal [/\{( [a-z_]\w* )}/ig] (written here with spaces inside
    the group); the [g] flag is in the use of [exec_global]. *)
Definition ICU_PLACEHOLDER_GLOBAL_RE : regex :=
  (Chr "{"
   >> Group (Cls (ignoreCase (union (range "a" "z") (single "_")))
             >> Star (ignoreCase word))
   >> Chr "}")%regex.

Definition assertNoClosureStylePlaceholdersInIcuTemplate (icuTemplate : string)
    : M unit :=
  let match_ := exec CLOSURE_PLACEHOLDER_RE icuTemplate in
  assert (bool_decide (match_ = None)) MSG_CLOSURE_PLACEHOLDER
    [ match match_ with Some m => VString (whole m) | None => VNull end;
      VString icuTemplate ].

(** The [while] loop of [gatherIcuPlaceholderNames].  Every turn calls
    [exec] on the shared regex; [fuel] bounds the number of turns.
    Adding [undefined] to the set (a match without group 1) would not
    change any later [has] of a string. *)
Fixpoint gather_loop (fuel : nat) (icuTemplate : string) (resultSet : gset string)
    : M (gset string) :=
  fun li =>
    match fuel with
    | O => (OutOfFuel, li)
    | S fuel' =>
        match exec_global ICU_PLACEHOLDER_GLOBAL_RE icuTemplate li with
        | (Some match_, li') =>
            gather_loop fuel' icuTemplate
              (match group1 match_ with
               | Some name => {[ name ]} ∪ resultSet
               | None => resultSet
               end) li'
        | (None, li') => (Return resultSet, li')
        end
    end.

(** Each match is at least three characters long and ends within the
    template, so the loop takes at most [length + 1] turns. *)
Definition gatherIcuPlaceholderNames (icuTemplate : string) : M (gset string) :=
  gather_loop (S (String.length icuTemplate)) icuTemplate ∅.

Definition assertValidPlaceholderMap (mapName : string) (placeholderMap : obj)
    (allPlaceholderNames : gset string) : M unit :=
  for_of (Object_keys placeholderMap) (fun placeholderName =>
    assert (has allPlaceholderNames placeholderName)
      MSG_UNKNOWN_PLACEHOLDER [VString mapName; VString placeholderName] ;;
    let placeholderValue := get placeholderMap placeholderName in
    assert (typeof placeholderValue =? "string")%string
      MSG_INVALID_VALUE
      [VString mapName; VString placeholderName; placeholderValue]).

(** The properties of a value that passed [if (map)] and
    [typeof map == 'object']: only an object is truthy with that type. *)
Definition properties (v : value) : obj :=
  match v with
  | VObject props => props
  | _ => []
  end.

Definition assertDeclareIcuTemplateParametersAreValid (COMPILED : bool)
    (templateString : string) (options : IcuTemplateOptions) : M unit :=
  if COMPILED then ret tt
  else
    assertNoClosureStylePlaceholdersInIcuTemplate templateString ;;
    icuPlaceholderNames <- gatherIcuPlaceholderNames templateString ;;
    let description := get options "description" in
    assert (truthy description) MSG_NO_DESCRIPTION [] ;;
    assert (typeof description =? "string")%string
      MSG_INVALID_DESCRIPTION [description] ;;
    let meaning := get options "meaning" in
    assert (negb (truthy meaning) || (typeof meaning =? "string")%string)
      MSG_INVALID_MEANING [meaning] ;;
    let exampleMap := get options "example" in
    (if truthy exampleMap then
       assert (typeof exampleMap =? "object")%string
         MSG_INVALID_EXAMPLE_MAP [exampleMap] ;;
       assertValidPlaceholderMap "example" (properties exampleMap)
         icuPlaceholderNames
     else ret tt) ;;
    let originalCodeMap := get options "original_code" in
    (if truthy originalCodeMap then
       assert (typeof originalCodeMap =? "object")%string
         MSG_INVALID_ORIGINAL_CODE_MAP [originalCodeMap] ;;
       assertValidPlaceholderMap "original_code" (properties originalCodeMap)
         icuPlaceholderNames
     else ret tt) ;;
    for_of (Object_keys options) (fun propName =>
      assert (has VALID_OPTIONS propName) MSG_UNKNOWN_OPTION [VString propName]).

Definition declareIcuTemplate (COMPILED : bool) (templateString : string)
    (options : IcuTemplateOptions) : M string :=
  assertDeclareIcuTemplateParametersAreValid COMPILED templateString options ;;
  ret templateString.

(** ** The vocabulary of the specification *)

(** The specification calls the module's closure-style placeholders
    legacy placeholders, and its assertion failures validation
    failures. *)

(** [m] occurs in [t]. *)
Definition occurs_in (m t : string) : Prop :=
  exists pre post, t = pre +:+ m +:+ post.

Fixpoint all_chars (cs : charset) (s : string) : bool :=
  match s with
  | EmptyString => true
  | String c s' => cs c && all_chars cs s'
  end.

(** A letter or an underscore: [[A-Za-z_]]. *)
Definition name_start : charset :=
  union (range "A" "Z") (union (range "a" "z") (single "_")).

(** A letter, a digit or an underscore: [[A-Za-z0-9_]]. *)
Definition name_char : charset :=
  union (range "A" "Z") (union (range "a" "z") (union (range "0" "9") (single "_"))).

(** [N] matches [[A-Za-z_][A-Za-z0-9_]*]. *)
Definition is_icu_name (N : string) : bool :=
  match N with
  | EmptyString => false
  | String c rest => name_start c && all_chars name_char rest
  end.

(** The ICU placeholder [{N}] and the closure-style placeholder [{$X}]. *)
Definition icu_placeholder (N : string) : string := "{" +:+ N +:+ "}".
Definition closure_placeholder (X : string) : string := "{$" +:+ X +:+ "}".

(** [N] is a placeholder name of the template [t]: a name such that
    [{N}] occurs in [t]. *)
Definition placeholder_name_of (t N : string) : Prop :=
  is_icu_name N = true /\ occurs_in (icu_placeholder N) t.

(** One or more characters other than [}]. *)
Definition closure_content (X : string) : bool :=
  negb (X =? "")%string && all_chars (negated (single "}")) X.

(** [t] contains [{$], one or more characters other than [}], and [}]. *)
Definition has_closure_placeholder (t : string) : Prop :=
  exists X, closure_content X = true /\ occurs_in (closure_placeholder X) t.

Definition is_text (v : value) : Prop := exists s, v = VString s.

(** The failure of the closure-style placeholder check that names [m],
    found in the template [t]. *)
Definition closure_placeholder_error (m t : string) : AssertionError :=
  {| messagePattern := MSG_CLOSURE_PLACEHOLDER;
     messageArgs := [VString m; VString t] |}.

(** The state after a sequence of calls of [declareIcuTemplate], whatever
    each of them did. *)
Fixpoint after_calls (COMPILED : bool) (calls : list (string * obj))
    (li : lastIndex) : lastIndex :=
  match calls with
  | [] => li
  | (t, o) :: calls' =>
      after_calls COMPILED calls' (snd (declareIcuTemplate COMPILED t o li))
  end.

(** A call fails when it throws. *)
Definition fails {A} (r : outcome A * lastIndex) : Prop :=
  exists e, fst r = Throw e.

(** A failure names a string when the string is among the values handed
    to the message. *)
Definition mentions (e : AssertionError) (x : string) : Prop :=
  VString x ∈ messageArgs e.

Definition no_description_error : AssertionError :=
  {| messagePattern := MSG_NO_DESCRIPTION; messageArgs := [] |}.

Definition unknown_placeholder_error (mapName k : string) : AssertionError :=
  {| messagePattern := MSG_UNKNOWN_PLACEHOLDER;
     messageArgs := [VString mapName; VString k] |}.

Definition invalid_value_error (mapName k : string) (v : value) : AssertionError :=
  {| messagePattern := MSG_INVALID_VALUE;
     messageArgs := [VString mapName; VString k; v] |}.

Definition unknown_option_error (k : string) : AssertionError :=
  {| messagePattern := MSG_UNKNOWN_OPTION; messageArgs := [VString k] |}.

(** The field [k] of the options record is present, or missing. *)
Definition present (o : obj) (k : string) : Prop := k ∈ Object_keys o.
Definition missing (o : obj) (k : string) : Prop := k ∉ Object_keys o.

#[global] Instance present_dec o k : Decision (present o k).
Proof. unfold present, Object_keys. apply _. Defined.

#[global] Instance missing_dec o k : Decision (missing o k).
Proof. unfold missing, Object_keys. apply _. Defined.

(** One of the four recognized field names. *)
Definition recognized (k : string) : Prop :=
  k = "description" \/ k = "meaning" \/ k = "example" \/ k = "original_code".

(** [description] is present and is text. *)
Definition description_is_text (o : obj) : Prop :=
  present o "description" /\ is_text (get o "description").

(** [meaning] is text if present. *)
Definition meaning_is_text_if_present (o : obj) : Prop :=
  missing o "meaning" \/ is_text (get o "meaning").

(** The key [k] of the map [m] is a placeholder name of the template and
    its value is text. *)
Definition entry_ok (t : string) (m : obj) (k : string) : Prop :=
  placeholder_name_of t k /\ is_text (get m k).

(** The map [field] of the options record, if present, is a map whose
    keys are all placeholder names of the template and whose values are
    all text. *)
Definition map_ok_if_present (t : string) (o : obj) (field : string) : Prop :=
  missing o field \/
  exists m, get o field = VObject m /\ Forall (entry_ok t m) (Object_keys m).

(** [m] returns or throws from [li]: it does not run out of fuel. *)
Definition settles {A} (m : M A) (li : lastIndex) : Prop :=
  (exists a li', m li = (Return a, li')) \/ (exists e li', m li = (Throw e, li')).

(** [m] leaves the state [li] as it found it, whatever its outcome. *)
Definition keeps {A} (li : lastIndex) (m : M A) : Prop := snd (m li) = li.

(** What the checks behind the closure-style placeholder check ask of
    the options record, given the set of gathered names. *)
Definition map_passes (names : gset string) (v : value) : Prop :=
  truthy v = true ->
  exists m, v = VObject m /\
    Forall (fun k => k ∈ names /\ is_text (get m k)) (Object_keys m).

Definition options_pass (names : gset string) (o : obj) : Prop :=
  truthy (get o "description") = true /\
  is_text (get o "description") /\
  (truthy (get o "meaning") = true -> is_text (get o "meaning")) /\
  map_passes names (get o "example") /\
  map_passes names (get o "original_code") /\
  Forall (fun k => k ∈ VALID_OPTIONS) (Object_keys o).

(** ** Deterministic readings of the two patterns *)

(** These are not part of the module: they are what the backtracking
    matcher is shown to compute on the two literals. *)

Fixpoint take_while (cs : charset) (s : string) : string :=
  match s with
  | String c s' => if cs c then String c (take_while cs s') else EmptyString
  | EmptyString => EmptyString
  end.

Fixpoint drop_while (cs : charset) (s : string) : string :=
  match s with
  | String c s' => if cs c then drop_while cs s' else s
  | EmptyString => EmptyString
  end.

(** The content [X] when [s] begins with a closure-style placeholder. *)
Definition closure_prefix (s : string) : option string :=
  match s with
  | String c1 (String c2 (String c rest)) =>
      if Ascii.eqb "{" c1 && Ascii.eqb "$" c2 && negated (single "}") c then
        match drop_while (negated (single "}")) rest with
        | String c3 _ =>
            if Ascii.eqb "}" c3
            then Some (String c (take_while (negated (single "}")) rest))
            else None
        | EmptyString => None
        end
      else None
  | _ => None
  end.

(** The name [N] when [s] begins with an ICU placeholder. *)
Definition icu_prefix (s : string) : option string :=
  match s with
  | String c1 (String c rest) =>
      if Ascii.eqb "{" c1 && name_start c then
        match drop_while name_char rest with
        | String c3 _ =>
            if Ascii.eqb "}" c3
            then Some (String c (take_while name_char rest))
            else None
        | EmptyString => None
        end
      else None
  | _ => None
  end.

(** The names of the ICU placeholders that begin anywhere in [s]. *)
Fixpoint all_names (s : string) : gset string :=
  match icu_prefix s with
  | Some N => {[ N ]}
  | None => ∅
  end ∪
  match s with
  | String _ s' => all_names s'
  | EmptyString => ∅
  end.

(** ** More vocabulary: the other failures, and what a call accepts *)

Definition invalid_description_error (v : value) : AssertionError :=
  {| messagePattern := MSG_INVALID_DESCRIPTION; messageArgs := [v] |}.

Definition invalid_meaning_error (v : value) : AssertionError :=
  {| messagePattern := MSG_INVALID_MEANING; messageArgs := [v] |}.

Definition invalid_example_map_error (v : value) : AssertionError :=
  {| messagePattern := MSG_INVALID_EXAMPLE_MAP; messageArgs := [v] |}.

Definition invalid_original_code_map_error (v : value) : AssertionError :=
  {| messagePattern := MSG_INVALID_ORIGINAL_CODE_MAP; messageArgs := [v] |}.

(** The value of a map field is accepted for the template [t]: it is
    falsy, or an object whose keys are placeholder names of [t] with text
    values. *)
Definition map_accepted (t : string) (v : value) : Prop :=
  truthy v = true ->
  exists m, v = VObject m /\ Forall (entry_ok t m) (Object_keys m).

(** The options record is accepted for the template [t]. *)
Definition options_accepted (t : string) (o : obj) : Prop :=
  truthy (get o "description") = true /\
  is_text (get o "description") /\
  (truthy (get o "meaning") = true -> is_text (get o "meaning")) /\
  map_accepted t (get o "example") /\
  map_accepted t (get o "original_code") /\
  Forall recognized (Object_keys o).

(** The failure of the check of the map [m] at its key [k]. *)
Definition map_failure_at (t mapName : string) (m : obj) (k : string)
    (e : AssertionError) : Prop :=
  (~ placeholder_name_of t k /\ e = unknown_placeholder_error mapName k) \/
  (placeholder_name_of t k /\ ~ is_text (get m k) /\
   e = invalid_value_error mapName k (get m k)).

(** The failure of the check of the map field [field], whose value is
    [v]. *)
Definition map_failure (t field : string) (v : value) (invalid : AssertionError)
    (e : AssertionError) : Prop :=
  (truthy v = true /\ typeof v <> "object" /\ e = invalid) \/
  (exists m k, v = VObject m /\ k ∈ Object_keys m /\ map_failure_at t field m k e).

(** The failures a call on [t] and [o] can end in. *)
Definition known_failure (t : string) (o : obj) (e : AssertionError) : Prop :=
  (exists X, closure_content X = true /\ occurs_in (closure_placeholder X) t /\
             e = closure_placeholder_error (closure_placeholder X) t) \/
  (truthy (get o "description") = false /\ e = no_description_error) \/
  (~ is_text (get o "description") /\
   e = invalid_description_error (get o "description")) \/
  (truthy (get o "meaning") = true /\ ~ is_text (get o "meaning") /\
   e = invalid_meaning_error (get o "meaning")) \/
  map_failure t "example" (get o "example")
    (invalid_example_map_error (get o "example")) e \/
  map_failure t "original_code" (get o "original_code")
    (invalid_original_code_map_error (get o "original_code")) e \/
  (exists k, present o k /\ ~ recognized k /\ e = unknown_option_error k).

(** * Proofs *)

(** ** The model at work *)

(** The closure-style pattern needs a content of at least one character,
    and takes a brace-free content as far as it goes. *)
Example exec_closure_examples :
  exec CLOSURE_PLACEHOLDER_RE "a {$x} {$y}"
  = Some {| index := 2; whole := "{$x}"; group1 := Some "x" |} /\
  exec CLOSURE_PLACEHOLDER_RE "a{${}b}"
  = Some {| index := 1; whole := "{${}"; group1 := Some "{" |} /\
  exec CLOSURE_PLACEHOLDER_RE "{$}" = None /\
  exec CLOSURE_PLACEHOLDER_RE "{$NAME" = None.
Proof. by vm_compute. Qed.

(** Successive calls of [exec] on the global pattern walk through the
    template; the call that finds nothing resets [lastIndex]. *)
Example exec_global_examples :
  let t := "{{a}}{B1}" in
  exec_global ICU_PLACEHOLDER_GLOBAL_RE t 0
  = (Some {| index := 1; whole := "{a}"; group1 := Some "a" |}, 4) /\
  exec_global ICU_PLACEHOLDER_GLOBAL_RE t 4
  = (Some {| index := 5; whole := "{B1}"; group1 := Some "B1" |}, 9) /\
  exec_global ICU_PLACEHOLDER_GLOBAL_RE t 9 = (None, 0) /\
  exec_global ICU_PLACEHOLDER_GLOBAL_RE "{a-b}{1a}{_}" 0
  = (Some {| index := 9; whole := "{_}"; group1 := Some "_" |}, 12).
Proof. by vm_compute. Qed.

(** The calls of the specification's end-to-end tests. *)
Example declareIcuTemplate_examples :
  let o := [("description", VString "greets user");
            ("example", VObject [("NAME", VString "Jane")])] in
  declareIcuTemplate false "Hi, {NAME}!" o initial = (Return "Hi, {NAME}!", initial) /\
  declareIcuTemplate false "Hi, {$NAME}!" [("description", VString "x")] initial
  = (Throw (closure_placeholder_error "{$NAME}" "Hi, {$NAME}!"), initial) /\
  declareIcuTemplate false "Hi, {name}!" o initial
  = (Throw (unknown_placeholder_error "example" "NAME"), initial).
Proof. by vm_compute. Qed.

(** ** Strings *)

Section strings.

Implicit Types (s t pre post : string) (c : ascii) (cs : charset).

Lemma app_cons c s t : String c s +:+ t = String c (s +:+ t).
Proof. reflexivity. Qed.

Lemma app_nil_l s : "" +:+ s = s.
Proof. reflexivity. Qed.

Lemma app_nil_r s : s +:+ "" = s.
Proof. induction s as [|c s IH]; [done|]. by rewrite app_cons, IH. Qed.

Lemma app_assoc s t u : (s +:+ t) +:+ u = s +:+ t +:+ u.
Proof. induction s as [|c s IH]; [done|]. by rewrite !app_cons, IH. Qed.

Lemma length_app s t :
  String.length (s +:+ t) = String.length s + String.length t.
Proof. induction s as [|c s IH]; [done|]. rewrite app_cons. simpl. by rewrite IH. Qed.

Lemma drop_str_app pre s : drop_str (String.length pre) (pre +:+ s) = s.
Proof. induction pre as [|c pre IH]; [by destruct s|]. by rewrite app_cons. Qed.

Lemma drop_str_split n t :
  n <= String.length t ->
  exists pre, t = pre +:+ drop_str n t /\ String.length pre = n.
Proof.
  revert t. induction n as [|n IH]; intros t Hn.
  - exists "". by destruct t.
  - destruct t as [|c t]; simpl in Hn; [lia|].
    destruct (IH t) as (pre & Ht & Hlen); [lia|].
    exists (String c pre). simpl. by rewrite app_cons, <- Ht, Hlen.
Qed.

Lemma drop_str_ge n t : String.length t <= n -> drop_str n t = "".
Proof.
  revert t. induction n as [|n IH]; intros [|c t] Hn; simpl in *; try done; try lia.
  apply IH. lia.
Qed.

Lemma substring_0_app m post :
  substring 0 (String.length m) (m +:+ post) = m.
Proof.
  induction m as [|c m IH]; [by destruct post|].
  rewrite app_cons. simpl. by rewrite IH.
Qed.

Lemma substring_app_mid pre m post :
  substring (String.length pre) (String.length m) (pre +:+ m +:+ post) = m.
Proof.
  induction pre as [|c pre IH].
  - rewrite app_nil_l. apply substring_0_app.
  - by rewrite app_cons.
Qed.

(** Two ways of cutting one string: the shorter prefix is a prefix of
    the longer one. *)
Lemma app_eq_app_lt pre1 r1 pre2 r2 :
  pre1 +:+ r1 = pre2 +:+ r2 ->
  String.length pre1 <= String.length pre2 ->
  exists mid, pre2 = pre1 +:+ mid /\ r1 = mid +:+ r2.
Proof.
  revert pre2. induction pre1 as [|c pre1 IH]; intros pre2 Heq Hlen.
  - by exists pre2.
  - destruct pre2 as [|c2 pre2]; simpl in Hlen; [lia|].
    rewrite !app_cons in Heq. injection Heq as -> Heq.
    destruct (IH pre2 Heq) as (mid & -> & ->); [lia|].
    by exists mid.
Qed.

Lemma take_drop_while cs s : s = take_while cs s +:+ drop_while cs s.
Proof.
  induction s as [|c s IH]; [done|]. simpl.
  destruct (cs c); [|done]. by rewrite app_cons, <- IH.
Qed.

Lemma all_chars_take_while cs s : all_chars cs (take_while cs s) = true.
Proof.
  induction s as [|c s IH]; [done|]. simpl.
  destruct (cs c) eqn:Hc; [|done]. simpl. by rewrite Hc.
Qed.

Lemma take_while_app cs X c post :
  all_chars cs X = true -> cs c = false ->
  take_while cs (X +:+ String c post) = X.
Proof.
  intros HX Hc. induction X as [|x X IH].
  - rewrite app_nil_l. simpl. by rewrite Hc.
  - rewrite app_cons. simpl in *. apply andb_prop in HX as [-> HX].
    by rewrite IH.
Qed.

Lemma drop_while_app cs X c post :
  all_chars cs X = true -> cs c = false ->
  drop_while cs (X +:+ String c post) = String c post.
Proof.
  intros HX Hc. induction X as [|x X IH].
  - rewrite app_nil_l. simpl. by rewrite Hc.
  - rewrite app_cons. simpl in *. apply andb_prop in HX as [-> HX].
    by rewrite IH.
Qed.

Lemma drop_while_head cs s c s' :
  drop_while cs s = String c s' -> cs c = false.
Proof.
  induction s as [|x s IH]; [done|]. simpl.
  destruct (cs x) eqn:Hx; [done|]. by intros [= <- <-].
Qed.

End strings.

(** Normal form of concatenations: characters to the front, nested to
    the right. *)
Ltac norm_app :=
  repeat first
    [ rewrite app_assoc | rewrite app_cons | rewrite app_nil_l | rewrite app_nil_r ].
Ltac norm_app_in H :=
  repeat first
    [ rewrite app_assoc in H | rewrite app_cons in H
    | rewrite app_nil_l in H | rewrite app_nil_r in H ].

(** ** The matcher on the two patterns *)

Section matcher.

Implicit Types (s t pre post X N : string) (c : ascii) (cs : charset).

(** When the continuation fails in front of every character of the
    class, backtracking never helps: the repetition takes the longest
    run and hands over to the continuation there. *)
Lemma repeat_greedy cs (k : continuation) cap s i :
  (forall c s' j, cs c = true -> k (String c s') j cap = None) ->
  repeat cs s i cap k
  = k (drop_while cs s) (i + String.length (take_while cs s)) cap.
Proof.
  intros Hk. revert i. induction s as [|c s IH]; intros i; simpl.
  - by rewrite Nat.add_0_r.
  - destruct (cs c) eqn:Hc; simpl.
    + rewrite IH. replace (S i + String.length (take_while cs s))
        with (i + S (String.length (take_while cs s))) by lia.
      destruct (k _ _ _) eqn:Hres; [done|].
      by apply Hk.
    + by rewrite Nat.add_0_r.
Qed.

(** Facts about character classes are checked on each of the 256
    characters. *)
Ltac by_cases_on c :=
  destruct c as [[] [] [] [] [] [] [] []]; vm_compute;
  first [reflexivity | intros H; first [reflexivity | discriminate H]].

Lemma ignoreCase_name_start c :
  ignoreCase (union (range "a" "z") (single "_")) c = name_start c.
Proof. by_cases_on c. Qed.

Lemma ignoreCase_word c : ignoreCase word c = name_char c.
Proof. by_cases_on c. Qed.

Lemma name_char_not_brace c : name_char c = true -> Ascii.eqb "}" c = false.
Proof. by_cases_on c. Qed.

Lemma name_char_not_open c : name_char c = true -> Ascii.eqb "{" c = false.
Proof. by_cases_on c. Qed.

Lemma name_start_name_char c : name_start c = true -> name_char c = true.
Proof. by_cases_on c. Qed.

Lemma drop_while_ignoreCase_word s :
  drop_while (ignoreCase word) s = drop_while name_char s.
Proof.
  induction s as [|c s IH]; [done|]. cbn [drop_while].
  by rewrite ignoreCase_word, IH.
Qed.

Lemma take_while_ignoreCase_word s :
  take_while (ignoreCase word) s = take_while name_char s.
Proof.
  induction s as [|c s IH]; [done|]. cbn [take_while].
  by rewrite ignoreCase_word, IH.
Qed.

(** What one attempt of the closure-style pattern computes. *)
Lemma match_at_closure s i :
  match_at CLOSURE_PLACEHOLDER_RE s i
  = match closure_prefix s with
    | Some X => Some (i + String.length X + 3,
                      Some (i + 2, i + 2 + String.length X))
    | None => None
    end.
Proof.
  unfold match_at, CLOSURE_PLACEHOLDER_RE, closure_prefix. cbn [matcher].
  destruct s as [|c1 [|c2 [|c rest]]].
  - done.
  - by destruct (Ascii.eqb "{" c1).
  - destruct (Ascii.eqb "{" c1); [|done]. by destruct (Ascii.eqb "$" c2).
  - destruct (Ascii.eqb "{" c1); [|done].
    destruct (Ascii.eqb "$" c2); [|done]. cbn [andb].
    destruct (negated (single "}") c); [|done].
    rewrite repeat_greedy.
    + destruct (drop_while _ rest) as [|c3 post]; [done|].
      destruct (Ascii.eqb "}" c3); [|done].
      cbn [String.length]. f_equal. f_equal; [lia|]. f_equal. f_equal; lia.
    + intros c' s' j Hc'. unfold negated, single in Hc'.
      by destruct (Ascii.eqb "}" c').
Qed.

(** What one attempt of the ICU pattern computes. *)
Lemma match_at_icu s i :
  match_at ICU_PLACEHOLDER_GLOBAL_RE s i
  = match icu_prefix s with
    | Some N => Some (i + String.length N + 2,
                      Some (i + 1, i + 1 + String.length N))
    | None => None
    end.
Proof.
  unfold match_at, ICU_PLACEHOLDER_GLOBAL_RE, icu_prefix. cbn [matcher].
  destruct s as [|c1 [|c rest]].
  - done.
  - by destruct (Ascii.eqb "{" c1).
  - destruct (Ascii.eqb "{" c1); [|done].
    rewrite ignoreCase_name_start. cbn [andb].
    destruct (name_start c); [|done].
    rewrite repeat_greedy.
    + rewrite drop_while_ignoreCase_word, take_while_ignoreCase_word.
      destruct (drop_while _ rest) as [|c3 post]; [done|].
      destruct (Ascii.eqb "}" c3); [|done].
      cbn [String.length]. f_equal. f_equal; [lia|]. f_equal. f_equal; lia.
    + intros c' s' j Hc'. rewrite ignoreCase_word in Hc'.
      by rewrite (name_char_not_brace c').
Qed.

Lemma closure_prefix_Some s X :
  closure_prefix s = Some X ->
  closure_content X = true /\ exists post, s = closure_placeholder X +:+ post.
Proof.
  unfold closure_prefix, closure_content, closure_placeholder.
  destruct s as [|c1 [|c2 [|c rest]]]; try done.
  destruct (Ascii.eqb_spec "{" c1) as [<-|]; [|done].
  destruct (Ascii.eqb_spec "$" c2) as [<-|]; [|done]. cbn [andb].
  destruct (negated (single "}") c) eqn:Hc; [|done].
  destruct (drop_while _ rest) as [|c3 post] eqn:Hdrop; [done|].
  destruct (Ascii.eqb_spec "}" c3) as [<-|]; [|done].
  intros [= <-]. split.
  - cbn [all_chars String.eqb negb andb]. by rewrite Hc, all_chars_take_while.
  - exists post.
    rewrite (take_drop_while (negated (single "}")) rest) at 1.
    rewrite Hdrop. by norm_app.
Qed.

Lemma closure_prefix_app X post :
  closure_content X = true ->
  closure_prefix (closure_placeholder X +:+ post) = Some X.
Proof.
  unfold closure_content, closure_placeholder. intros HX.
  destruct X as [|c X]; [done|]. cbn [String.eqb negb andb all_chars] in HX.
  apply andb_prop in HX as [Hc HX].
  norm_app. unfold closure_prefix. rewrite !Ascii.eqb_refl, Hc. cbn [andb].
  rewrite drop_while_app, take_while_app; try done.
Qed.

Lemma icu_prefix_Some s N :
  icu_prefix s = Some N ->
  is_icu_name N = true /\ exists post, s = icu_placeholder N +:+ post.
Proof.
  unfold icu_prefix, icu_placeholder.
  destruct s as [|c1 [|c rest]]; try done.
  destruct (Ascii.eqb_spec "{" c1) as [<-|]; [|done]. cbn [andb].
  destruct (name_start c) eqn:Hc; [|done].
  destruct (drop_while _ rest) as [|c3 post] eqn:Hdrop; [done|].
  destruct (Ascii.eqb_spec "}" c3) as [<-|]; [|done].
  intros [= <-]. split.
  - cbn [is_icu_name]. by rewrite Hc, all_chars_take_while.
  - exists post.
    rewrite (take_drop_while name_char rest) at 1.
    rewrite Hdrop. by norm_app.
Qed.

Lemma icu_prefix_app N post :
  is_icu_name N = true ->
  icu_prefix (icu_placeholder N +:+ post) = Some N.
Proof.
  unfold icu_placeholder. intros HN.
  destruct N as [|c N]; [done|]. cbn [is_icu_name] in HN.
  apply andb_prop in HN as [Hc HN].
  norm_app. unfold icu_prefix. rewrite Ascii.eqb_refl, Hc. cbn [andb].
  rewrite drop_while_app, take_while_app; try done.
Qed.

End matcher.

(** ** The search loop *)

Section search.

Implicit Types (s t pre post rest X N : string) (c : ascii) (r : regex).

(** A successful search stops at the leftmost index where the pattern
    matches. *)
Lemma scan_Some r s i j st :
  scan r s i = Some (j, st) ->
  exists pre rest,
    s = pre +:+ rest /\ j = i + String.length pre /\
    match_at r rest j = Some st /\
    forall pre1 rest1,
      s = pre1 +:+ rest1 -> String.length pre1 < String.length pre ->
      match_at r rest1 (i + String.length pre1) = None.
Proof.
  revert i. induction s as [|c s IH]; intros i; cbn [scan].
  - destruct (match_at r "" i) as [st'|] eqn:Hm; [|done].
    intros [= <- <-]. exists "", "". rewrite Nat.add_0_r.
    repeat split; try done. intros ?? _ Hlt. simpl in Hlt. lia.
  - destruct (match_at r (String c s) i) as [st'|] eqn:Hm.
    + intros [= <- <-]. exists "", (String c s). rewrite Nat.add_0_r.
      repeat split; try done. intros ?? _ Hlt. simpl in Hlt. lia.
    + intros Hscan. destruct (IH _ Hscan) as (pre & rest & -> & -> & Hrest & Hmin).
      exists (String c pre), rest. cbn [String.length].
      rewrite Nat.add_succ_r. split_and!; [done..|].
      intros [|c1 pre1] rest1 Heq Hlt.
      * rewrite app_nil_l in Heq. subst rest1. by rewrite Nat.add_0_r.
      * rewrite !app_cons in Heq. injection Heq as -> Heq.
        cbn [String.length] in *. rewrite Nat.add_succ_r.
        apply Hmin; [done|lia].
Qed.

(** A failed search has tried every index. *)
Lemma scan_None r s i pre rest :
  scan r s i = None -> s = pre +:+ rest ->
  match_at r rest (i + String.length pre) = None.
Proof.
  revert i pre. induction s as [|c s IH]; intros i pre; cbn [scan].
  - destruct (match_at r "" i) eqn:Hm; [done|]. intros _ Heq.
    destruct pre; [|done]. rewrite app_nil_l in Heq. subst.
    by rewrite Nat.add_0_r.
  - destruct (match_at r (String c s) i) eqn:Hm; [done|]. intros Hscan Heq.
    destruct pre as [|c1 pre].
    + rewrite app_nil_l in Heq. subst. by rewrite Nat.add_0_r.
    + rewrite app_cons in Heq. injection Heq as -> Heq.
      cbn [String.length]. rewrite Nat.add_succ_r. by apply (IH (S i)).
Qed.

Lemma has_closure_placeholder_prefix t :
  has_closure_placeholder t <->
  exists pre rest, t = pre +:+ rest /\ is_Some (closure_prefix rest).
Proof.
  split.
  - intros (X & HX & pre & post & ->). exists pre, (closure_placeholder X +:+ post).
    split; [done|by rewrite closure_prefix_app].
  - intros (pre & rest & -> & X & HX).
    apply closure_prefix_Some in HX as (HX & post & ->).
    exists X. split; [done|]. by exists pre, post.
Qed.

(** [exec] of the closure-style pattern finds nothing exactly on the
    templates without a closure-style placeholder. *)
Lemma exec_closure_None t :
  exec CLOSURE_PLACEHOLDER_RE t = None <-> ~ has_closure_placeholder t.
Proof.
  unfold exec. rewrite has_closure_placeholder_prefix. split.
  - intros Hexec (pre & rest & -> & X & HX).
    destruct (scan _ _ 0) eqn:Hscan; [done|].
    pose proof (scan_None _ _ _ _ _ Hscan eq_refl) as Hm.
    by rewrite match_at_closure, HX in Hm.
  - intros Hno. destruct (scan _ _ 0) as [[j st]|] eqn:Hscan; [|done].
    exfalso. apply Hno.
    apply scan_Some in Hscan as (pre & rest & -> & _ & Hm & _).
    exists pre, rest. split; [done|]. rewrite match_at_closure in Hm.
    by destruct (closure_prefix rest).
Qed.

(** What [exec] of the closure-style pattern finds is the leftmost
    closure-style placeholder. *)
Lemma exec_closure_Some t m :
  exec CLOSURE_PLACEHOLDER_RE t = Some m ->
  exists pre X post,
    t = pre +:+ closure_placeholder X +:+ post /\
    closure_content X = true /\
    whole m = closure_placeholder X /\
    forall pre1 rest1,
      t = pre1 +:+ rest1 -> String.length pre1 < String.length pre ->
      closure_prefix rest1 = None.
Proof.
  unfold exec. destruct (scan _ _ 0) as [[j [e cap]]|] eqn:Hscan; [|done].
  intros [= <-].
  apply scan_Some in Hscan as (pre & rest & -> & -> & Hm & Hmin).
  rewrite match_at_closure in Hm.
  destruct (closure_prefix rest) as [X|] eqn:HX; [|done].
  injection Hm as <- <-.
  apply closure_prefix_Some in HX as (HX & post & ->).
  exists pre, X, post. split_and!; [done..| |].
  - cbn [make_array whole]. rewrite ?Nat.add_0_l.
    replace (String.length pre + String.length X + 3 - String.length pre)
      with (String.length (closure_placeholder X)).
    + apply substring_app_mid.
    + unfold closure_placeholder. rewrite !length_app. simpl. lia.
  - intros pre1 rest1 Heq Hlt. specialize (Hmin pre1 rest1 Heq Hlt).
    rewrite match_at_closure in Hmin. by destruct (closure_prefix rest1).
Qed.

End search.

(** ** Gathering the placeholder names *)

Section gather.

Implicit Types (s t pre post rest X N : string) (c : ascii).

Lemma all_names_unfold s :
  all_names s
  = match icu_prefix s with Some N => {[ N ]} | None => ∅ end
    ∪ match s with String _ s' => all_names s' | EmptyString => ∅ end.
Proof. by destruct s. Qed.

Lemma icu_prefix_not_open c s :
  Ascii.eqb "{" c = false -> icu_prefix (String c s) = None.
Proof. intros Hc. unfold icu_prefix. destruct s; [done|]. by rewrite Hc. Qed.

Lemma all_names_not_open c s :
  Ascii.eqb "{" c = false -> all_names (String c s) = all_names s.
Proof.
  intros Hc. rewrite all_names_unfold, icu_prefix_not_open by done.
  set_solver.
Qed.

(** No placeholder begins inside a name. *)
Lemma all_names_name_chars X s :
  all_chars name_char X = true -> all_names (X +:+ s) = all_names s.
Proof.
  induction X as [|c X IH]; [done|]. cbn [all_chars].
  intros [Hc HX]%andb_prop. rewrite app_cons.
  rewrite all_names_not_open by by apply name_char_not_open. auto.
Qed.

(** A placeholder contributes its name, and the search goes on behind
    its closing brace. *)
Lemma all_names_placeholder N post :
  is_icu_name N = true ->
  all_names (icu_placeholder N +:+ post) = {[ N ]} ∪ all_names post.
Proof.
  intros HN. rewrite all_names_unfold, icu_prefix_app by done.
  unfold icu_placeholder. norm_app. f_equal.
  destruct N as [|c N]; [done|]. cbn [is_icu_name] in HN.
  apply andb_prop in HN as [Hc HN].
  rewrite (all_names_name_chars (String c N)).
  - by rewrite all_names_not_open.
  - cbn [all_chars]. by rewrite (name_start_name_char c), HN.
Qed.

Lemma all_names_skip pre rest :
  (forall pre1 rest1,
     pre +:+ rest = pre1 +:+ rest1 -> String.length pre1 < String.length pre ->
     icu_prefix rest1 = None) ->
  all_names (pre +:+ rest) = all_names rest.
Proof.
  induction pre as [|c pre IH]; intros Hmin; [done|].
  rewrite all_names_unfold, (Hmin "" (String c pre +:+ rest)); cbn; [|done|lia].
  rewrite app_cons, (left_id_L ∅ (∪)). apply IH.
  intros pre1 rest1 Heq Hlt. apply (Hmin (String c pre1)).
  - by rewrite !app_cons, Heq.
  - simpl. lia.
Qed.

(** The set read off the template is the set of its placeholder
    names. *)
Lemma elem_of_all_names t N : N ∈ all_names t <-> placeholder_name_of t N.
Proof.
  unfold placeholder_name_of, occurs_in. split.
  - induction t as [|c t IH]; rewrite all_names_unfold.
    + set_solver.
    + intros [HN|HN]%elem_of_union.
      * destruct (icu_prefix (String c t)) as [N'|] eqn:Hpre; [|set_solver].
        apply elem_of_singleton in HN as ->.
        apply icu_prefix_Some in Hpre as (HN & post & ->).
        split; [done|]. by exists "", post.
      * destruct (IH HN) as (Hname & pre & post & ->).
        split; [done|]. by exists (String c pre), post.
  - intros (HN & pre & post & ->). induction pre as [|c pre IH].
    + rewrite app_nil_l, all_names_placeholder by done. set_solver.
    + rewrite app_cons, all_names_unfold. set_solver.
Qed.

(** The loop, from any [lastIndex], adds the names of the placeholders
    that begin at or behind it, and leaves [lastIndex] at 0. *)
Lemma gather_loop_spec fuel t R li :
  S (String.length t - li) <= fuel ->
  gather_loop fuel t R li = (Return (R ∪ all_names (drop_str li t)), 0).
Proof.
  revert R li. induction fuel as [|fuel IH]; intros R li Hfuel; [lia|].
  cbn [gather_loop]. unfold exec_global.
  destruct (String.length t <? li)%nat eqn:Hlt.
  { apply Nat.ltb_lt in Hlt. rewrite drop_str_ge by lia.
    do 2 f_equal. set_solver. }
  apply Nat.ltb_ge in Hlt.
  destruct (drop_str_split li t Hlt) as (pre0 & Ht & Hlen).
  destruct (scan _ _ li) as [[j [e cap]]|] eqn:Hscan.
  - apply scan_Some in Hscan as (pre & rest & Hdrop & -> & Hm & Hmin).
    rewrite match_at_icu in Hm.
    destruct (icu_prefix rest) as [N|] eqn:HN; [|done].
    injection Hm as <- <-.
    apply icu_prefix_Some in HN as (HN & post & ->).
    assert (Hnames : all_names (drop_str li t) = {[ N ]} ∪ all_names post).
    { rewrite Hdrop in Hmin |- *. rewrite all_names_skip, all_names_placeholder; [done..|].
      intros pre1 rest1 Heq Hlt1. specialize (Hmin pre1 rest1 Heq Hlt1).
      rewrite match_at_icu in Hmin. by destruct (icu_prefix rest1). }
    rewrite Hdrop in Ht. unfold icu_placeholder in Ht. norm_app_in Ht.
    cbn [make_array group1 snd fst].
    replace (li + String.length pre + 1 + String.length N
             - (li + String.length pre + 1)) with (String.length N) by lia.
    assert (Hsub : substring (li + String.length pre + 1) (String.length N) t = N).
    { rewrite Ht at 1.
      replace (pre0 +:+ pre +:+ String "{" (N +:+ String "}" post))
        with ((pre0 +:+ pre +:+ "{") +:+ N +:+ String "}" post) by by norm_app.
      replace (li + String.length pre + 1)
        with (String.length (pre0 +:+ pre +:+ "{")).
      - apply substring_app_mid.
      - rewrite !length_app. simpl. lia. }
    rewrite Hsub.
    assert (Hend : drop_str (li + String.length pre + String.length N + 2) t = post).
    { rewrite Ht at 1.
      replace (pre0 +:+ pre +:+ String "{" (N +:+ String "}" post))
        with ((pre0 +:+ pre +:+ "{" +:+ N +:+ "}") +:+ post) by by norm_app.
      replace (li + String.length pre + String.length N + 2)
        with (String.length (pre0 +:+ pre +:+ "{" +:+ N +:+ "}")).
      - apply drop_str_app.
      - rewrite !length_app. simpl. lia. }
    rewrite IH, Hend, Hnames.
    + do 2 f_equal. set_solver.
    + apply (f_equal String.length) in Ht. rewrite !length_app in Ht.
      simpl in Ht. rewrite length_app in Ht. simpl in Ht. lia.
  - assert (Hnames : all_names (drop_str li t) = ∅).
    { rewrite <- (app_nil_r (drop_str li t)). rewrite all_names_skip; [done|].
      intros pre1 rest1 Heq _. rewrite app_nil_r in Heq.
      pose proof (scan_None _ _ _ _ _ Hscan Heq) as Hm.
      rewrite match_at_icu in Hm. by destruct (icu_prefix rest1). }
    rewrite Hnames. do 2 f_equal. set_solver.
Qed.

Lemma gatherIcuPlaceholderNames_spec t li :
  gatherIcuPlaceholderNames t li = (Return (all_names (drop_str li t)), 0).
Proof.
  unfold gatherIcuPlaceholderNames. rewrite gather_loop_spec by lia.
  do 2 f_equal. set_solver.
Qed.

End gather.

(** ** Values and objects *)

Section values.

Implicit Types (o m : obj) (k : string) (v : value).

Lemma get_missing o k : missing o k -> get o k = VUndefined.
Proof.
unfold missing, Object_keys. induction o as [|[k' v] o IH]; [done|].
cbn [map fst get]. intros Hk. apply not_elem_of_cons in Hk as [Hne Hk].
destruct (String.eqb_spec k' k); [congruence|]. auto.
Qed.

Lemma typeof_string v : (typeof v =? "string")%string = true <-> is_text v.
Proof.
unfold is_text. split.
- destruct v; try done. eauto.
- by intros [s ->].
Qed.

Lemma typeof_not_string v : (typeof v =? "string")%string = false <-> ~ is_text v.
Proof.
rewrite <- typeof_string. by destruct (typeof v =? "string")%string.
Qed.

Lemma truthy_object v :
  truthy v = true -> (typeof v =? "object")%string = true ->
  v = VObject (properties v).
Proof. by destruct v. Qed.

Lemma VALID_OPTIONS_recognized k : k ∈ VALID_OPTIONS <-> recognized k.
Proof. unfold VALID_OPTIONS, recognized. set_solver. Qed.

Lemma has_true (S : gset string) k : has S k = true <-> k ∈ S.
Proof. unfold has. apply bool_decide_eq_true. Qed.

Lemma has_false (S : gset string) k : has S k = false <-> k ∉ S.
Proof. unfold has. apply bool_decide_eq_false. Qed.

End values.

(** ** Running the checks *)

Section running.

Context {A B : Type}.
Implicit Types (li : lastIndex) (e : AssertionError).

Lemma bind_Return (m : M A) (f : A -> M B) li a li' :
  m li = (Return a, li') -> bind m f li = f a li'.
Proof. unfold bind. by intros ->. Qed.

Lemma bind_Throw (m : M A) (f : A -> M B) li e li' :
  m li = (Throw e, li') -> bind m f li = (Throw e, li').
Proof. unfold bind. by intros ->. Qed.

Lemma bind_assert (c : bool) msg args (k : M B) li :
  (assert c msg args ;; k) li
  = if c then k li
    else (Throw {| messagePattern := msg; messageArgs := args |}, li).
Proof. unfold bind, assert. by destruct c. Qed.

End running.

Section loops.

Context {A : Type}.
Implicit Types (xs : list A) (body : A -> M unit) (li : lastIndex).

Lemma for_of_Return xs body li :
  Forall (fun x => body x li = (Return tt, li)) xs ->
  for_of xs body li = (Return tt, li).
Proof.
induction 1 as [|x xs Hx _ IH]; [done|]. cbn [for_of].
by rewrite (bind_Return _ _ _ _ _ Hx).
Qed.

(** The loop stops at the first element whose turn throws. *)
Lemma for_of_Throw xs body li pre x rest e :
  xs = pre ++ x :: rest ->
  Forall (fun y => body y li = (Return tt, li)) pre ->
  body x li = (Throw e, li) ->
  for_of xs body li = (Throw e, li).
Proof.
intros -> Hpre Hx. induction Hpre as [|y pre Hy _ IH]; cbn [app for_of].
- by rewrite (bind_Throw _ _ _ _ _ Hx).
- by rewrite (bind_Return _ _ _ _ _ Hy).
Qed.

(** A loop of assertions returns or throws, and leaves the state. *)
Lemma for_of_outcome xs body li :
  (forall x, body x li = (Return tt, li) \/ exists e, body x li = (Throw e, li)) ->
  for_of xs body li = (Return tt, li) \/ exists e, for_of xs body li = (Throw e, li).
Proof.
intros Hbody. induction xs as [|x xs IH]; [by left|]. cbn [for_of].
destruct (Hbody x) as [Hx|[e Hx]].
- by rewrite (bind_Return _ _ _ _ _ Hx).
- right. exists e. by rewrite (bind_Throw _ _ _ _ _ Hx).
Qed.

End loops.

(** ** The closure-style placeholder check *)

Section closure_check.

Implicit Types (t pre post X Y : string) (li : lastIndex).

Lemma closure_check_Return t li :
  ~ has_closure_placeholder t ->
  assertNoClosureStylePlaceholdersInIcuTemplate t li = (Return tt, li).
Proof.
intros Hno. apply exec_closure_None in Hno.
unfold assertNoClosureStylePlaceholdersInIcuTemplate. by rewrite Hno.
Qed.

Lemma closure_check_Throw t li :
  has_closure_placeholder t ->
  exists pre X post,
    t = pre +:+ closure_placeholder X +:+ post /\
    closure_content X = true /\
    (forall pre1 rest1,
       t = pre1 +:+ rest1 -> String.length pre1 < String.length pre ->
       closure_prefix rest1 = None) /\
    assertNoClosureStylePlaceholdersInIcuTemplate t li
    = (Throw (closure_placeholder_error (closure_placeholder X) t), li).
Proof.
intros Hhas. unfold assertNoClosureStylePlaceholdersInIcuTemplate.
destruct (exec CLOSURE_PLACEHOLDER_RE t) as [m|] eqn:Hexec.
- destruct (exec_closure_Some _ _ Hexec) as (pre & X & post & Ht & HX & Hm & Hmin).
  exists pre, X, post. split_and!; [done..|].
  unfold assert, closure_placeholder_error. by rewrite Hm.
- by apply exec_closure_None in Hexec.
Qed.

Lemma has_closure_placeholder_dec t :
  has_closure_placeholder t \/ ~ has_closure_placeholder t.
Proof.
destruct (exec CLOSURE_PLACEHOLDER_RE t) eqn:Hexec.
- left. destruct (exec_closure_Some _ _ Hexec) as (pre & X & post & -> & HX & _).
  exists X. split; [done|]. by exists pre, post.
- right. by apply exec_closure_None.
Qed.


End closure_check.

(** ** Outcomes of computations *)

Section outcomes.

Context {A B : Type}.
Implicit Types (li : lastIndex) (e : AssertionError).

Lemma bind_Return_inv (m : M A) (f : A -> M B) li b li' :
  bind m f li = (Return b, li') ->
  exists a li1, m li = (Return a, li1) /\ f a li1 = (Return b, li').
Proof. unfold bind. destruct (m li) as [[a|e|] li1]; [eauto|done..]. Qed.

Lemma settles_bind (m : M A) (f : A -> M B) li :
  settles m li -> (forall a li', settles (f a) li') -> settles (bind m f) li.
Proof.
intros [(a & li' & Hm)|(e & li' & Hm)] Hf.
- unfold settles. rewrite (bind_Return _ _ _ _ _ Hm). apply Hf.
- right. exists e, li'. by apply bind_Throw.
Qed.

Lemma keeps_bind (m : M A) (f : A -> M B) li :
  keeps li m -> (forall a, keeps li (f a)) -> keeps li (bind m f).
Proof.
unfold keeps, bind. intros Hm Hf.
destruct (m li) as [[a|e|] li1]; simpl in *; subst; [apply Hf|done..].
Qed.

End outcomes.

Lemma settles_ret {A} (a : A) li : settles (ret a) li.
Proof. left. by exists a, li. Qed.

Lemma keeps_ret {A} (a : A) li : keeps li (ret a).
Proof. done. Qed.

Lemma settles_assert c msg args li : settles (assert c msg args) li.
Proof. unfold settles, assert. destruct c; [left|right]; eauto. Qed.

Lemma keeps_assert c msg args li : keeps li (assert c msg args).
Proof. unfold keeps, assert. by destruct c. Qed.

Lemma assert_Return_inv c msg args li u li' :
  assert c msg args li = (Return u, li') -> c = true /\ li' = li.
Proof. unfold assert. destruct c; [|done]. by intros [= _ <-]. Qed.

Lemma settles_for_of {A} (xs : list A) body li :
  (forall x li', settles (body x) li') -> settles (for_of xs body) li.
Proof.
intros Hbody. revert li. induction xs as [|x xs IH]; intros li.
- apply settles_ret.
- cbn [for_of]. apply settles_bind; [apply Hbody|]. intros _ li'. apply IH.
Qed.

Lemma keeps_for_of {A} (xs : list A) body li :
  (forall x, keeps li (body x)) -> keeps li (for_of xs body).
Proof.
intros Hbody. induction xs as [|x xs IH]; [done|].
cbn [for_of]. apply keeps_bind; [apply Hbody|done].
Qed.

Lemma for_of_Return_inv {A} (xs : list A) body li li' :
  (forall x, keeps li (body x)) ->
  for_of xs body li = (Return tt, li') ->
  li' = li /\ Forall (fun x => body x li = (Return tt, li)) xs.
Proof.
intros Hkeeps. induction xs as [|x xs IH]; cbn [for_of].
- intros [= <-]. by split.
- intros (u & li1 & Hx & Hxs)%bind_Return_inv.
  pose proof (Hkeeps x) as Hk. unfold keeps in Hk. rewrite Hx in Hk.
  simpl in Hk. subst li1. destruct u.
  destruct (IH Hxs) as [-> Hall]. split; [done|]. by constructor.
Qed.

Lemma settles_gather t li : settles (gatherIcuPlaceholderNames t) li.
Proof. left. rewrite gatherIcuPlaceholderNames_spec. eauto. Qed.

Lemma keeps_gather t : keeps initial (gatherIcuPlaceholderNames t).
Proof. unfold keeps. by rewrite gatherIcuPlaceholderNames_spec. Qed.

Lemma settles_closure_check t li :
  settles (assertNoClosureStylePlaceholdersInIcuTemplate t) li.
Proof. apply settles_assert. Qed.

Lemma keeps_closure_check t li :
  keeps li (assertNoClosureStylePlaceholdersInIcuTemplate t).
Proof. apply keeps_assert. Qed.

Lemma settles_placeholder_map mapName m names li :
  settles (assertValidPlaceholderMap mapName m names) li.
Proof.
apply settles_for_of. intros k li'.
apply settles_bind; [apply settles_assert|]. intros _ li''. apply settles_assert.
Qed.

Lemma keeps_placeholder_map mapName m names li :
  keeps li (assertValidPlaceholderMap mapName m names).
Proof.
apply keeps_for_of. intros k.
apply keeps_bind; [apply keeps_assert|]. intros _. apply keeps_assert.
Qed.

Lemma settles_declare c t o li : settles (declareIcuTemplate c t o) li.
Proof.
unfold declareIcuTemplate, assertDeclareIcuTemplateParametersAreValid.
apply settles_bind; [|intros; apply settles_ret].
destruct c; [apply settles_ret|].
repeat first
  [ apply settles_closure_check | apply settles_gather | apply settles_assert
  | apply settles_placeholder_map | apply settles_ret
  | apply settles_for_of; intros
  | apply settles_bind; [|intros]
  | match goal with |- settles (if ?b then _ else _) _ => destruct b end ].
Qed.

(** Between calls, [lastIndex] is 0: a call that starts there ends
    there, whatever its outcome. *)
Lemma keeps_declare c t o : keeps initial (declareIcuTemplate c t o).
Proof.
unfold declareIcuTemplate, assertDeclareIcuTemplateParametersAreValid.
apply keeps_bind; [|intros; apply keeps_ret].
destruct c; [apply keeps_ret|].
repeat first
  [ apply keeps_closure_check | apply keeps_gather | apply keeps_assert
  | apply keeps_placeholder_map | apply keeps_ret
  | apply keeps_for_of; intros
  | apply keeps_bind; [|intros]
  | match goal with |- keeps _ (if ?b then _ else _) => destruct b end ].
Qed.

Lemma after_calls_initial c calls : after_calls c calls initial = initial.
Proof.
induction calls as [|[t o] calls IH]; [done|]. cbn [after_calls].
by rewrite (keeps_declare c t o).
Qed.

(** ** The checks of the options record *)

Section checks.

Implicit Types (t : string) (o m : obj) (k : string) (li : lastIndex)
  (names : gset string).

Lemma placeholder_map_turn_Return mapName m names li k :
  k ∈ names -> is_text (get m k) ->
  (assert (has names k) MSG_UNKNOWN_PLACEHOLDER [VString mapName; VString k] ;;
   assert (typeof (get m k) =? "string")%string MSG_INVALID_VALUE
     [VString mapName; VString k; get m k]) li = (Return tt, li).
Proof.
intros Hk Hv. rewrite bind_assert. apply has_true in Hk. rewrite Hk.
apply typeof_string in Hv. unfold assert. by rewrite Hv.
Qed.

Lemma placeholder_map_Return mapName m names li :
  Forall (fun k => k ∈ names /\ is_text (get m k)) (Object_keys m) ->
  assertValidPlaceholderMap mapName m names li = (Return tt, li).
Proof.
intros Hall. apply for_of_Return. eapply Forall_impl; [done|].
intros k [Hk Hv]. by apply placeholder_map_turn_Return.
Qed.

Lemma placeholder_map_Return_inv mapName m names li u li' :
  assertValidPlaceholderMap mapName m names li = (Return u, li') ->
  li' = li /\ Forall (fun k => k ∈ names /\ is_text (get m k)) (Object_keys m).
Proof.
destruct u. intros Hrun. apply for_of_Return_inv in Hrun as [-> Hall].
- split; [done|]. eapply Forall_impl; [done|]. intros k Hk. cbv beta in Hk.
  apply bind_Return_inv in Hk as (u & li1 & [Hc1 ->]%assert_Return_inv & Hc2).
  apply assert_Return_inv in Hc2 as [Hc2 _].
  split; [by apply has_true|by apply typeof_string].
- intros k. apply keeps_bind; [apply keeps_assert|]. intros _. apply keeps_assert.
Qed.

(** The turn of the loop for an unknown key throws, naming the map and
    the key. *)
Lemma placeholder_map_unknown mapName m names li pre k rest :
  Object_keys m = pre ++ k :: rest ->
  Forall (fun k' => k' ∈ names /\ is_text (get m k')) pre ->
  k ∉ names ->
  assertValidPlaceholderMap mapName m names li
  = (Throw (unknown_placeholder_error mapName k), li).
Proof.
intros Hkeys Hpre Hk. eapply for_of_Throw; [done| |].
- eapply Forall_impl; [done|]. intros k' [Hk' Hv'].
  by apply placeholder_map_turn_Return.
- rewrite bind_assert. apply has_false in Hk. by rewrite Hk.
Qed.

(** The turn of the loop for a known key with a value that is not text
    throws, naming the map, the key and the value. *)
Lemma placeholder_map_invalid mapName m names li pre k rest :
  Object_keys m = pre ++ k :: rest ->
  Forall (fun k' => k' ∈ names /\ is_text (get m k')) pre ->
  k ∈ names -> ~ is_text (get m k) ->
  assertValidPlaceholderMap mapName m names li
  = (Throw (invalid_value_error mapName k (get m k)), li).
Proof.
intros Hkeys Hpre Hk Hv. eapply for_of_Throw; [done| |].
- eapply Forall_impl; [done|]. intros k' [Hk' Hv'].
  by apply placeholder_map_turn_Return.
- rewrite bind_assert. apply has_true in Hk. rewrite Hk.
  apply typeof_not_string in Hv. unfold assert. by rewrite Hv.
Qed.

Lemma map_check_Return mapName msg names (v : value) li :
  map_passes names v ->
  (if truthy v then
     assert (typeof v =? "object")%string msg [v] ;;
     assertValidPlaceholderMap mapName (properties v) names
   else ret tt) li = (Return tt, li).
Proof.
intros Hv. destruct (truthy v) eqn:Htruthy; [|done].
destruct (Hv Htruthy) as (m & -> & Hall).
rewrite bind_assert. cbn. by apply placeholder_map_Return.
Qed.

Lemma map_check_Return_inv mapName msg names (v : value) li u li' :
  (if truthy v then
     assert (typeof v =? "object")%string msg [v] ;;
     assertValidPlaceholderMap mapName (properties v) names
   else ret tt) li = (Return u, li') ->
  li' = li /\ map_passes names v.
Proof.
unfold map_passes. destruct (truthy v) eqn:Htruthy.
- intros (u' & li1 & [Hobj ->]%assert_Return_inv & Hmap)%bind_Return_inv.
  apply placeholder_map_Return_inv in Hmap as [-> Hall].
  split; [done|]. intros _. exists (properties v).
  split; [by apply truthy_object|done].
- intros [= _ <-]. by split.
Qed.

(** A call in uncompiled mode returns exactly when the template has no
    closure-style placeholder and the options record passes the checks
    against the gathered names; it then returns the template. *)
Lemma declare_Return t o li :
  ~ has_closure_placeholder t ->
  options_pass (all_names (drop_str li t)) o ->
  declareIcuTemplate false t o li = (Return t, 0).
Proof.
intros Hno (Hd1 & Hd2 & Hmeaning & Hex & Hoc & Hkeys).
unfold declareIcuTemplate, assertDeclareIcuTemplateParametersAreValid.
erewrite bind_Return; [done|].
erewrite bind_Return; [|by apply closure_check_Return].
erewrite bind_Return; [|apply gatherIcuPlaceholderNames_spec].
rewrite bind_assert, Hd1, bind_assert.
apply typeof_string in Hd2. rewrite Hd2, bind_assert.
replace (negb (truthy (get o "meaning")) ||
         (typeof (get o "meaning") =? "string")%string) with true.
2:{ destruct (truthy (get o "meaning")); [|done].
    symmetry. by apply typeof_string, Hmeaning. }
erewrite bind_Return; [|by apply map_check_Return].
erewrite bind_Return; [|by apply map_check_Return].
apply for_of_Return. eapply Forall_impl; [done|].
intros k Hk. unfold assert. apply has_true in Hk. by rewrite Hk.
Qed.

Lemma declare_Return_inv t o li r li' :
  declareIcuTemplate false t o li = (Return r, li') ->
  r = t /\ li' = 0 /\ ~ has_closure_placeholder t /\
  options_pass (all_names (drop_str li t)) o.
Proof.
unfold declareIcuTemplate, assertDeclareIcuTemplateParametersAreValid.
intros (u & li1 & Hrun & [= <- <-])%bind_Return_inv. destruct u.
apply bind_Return_inv in Hrun as (u1 & li2 & Hclosure & Hrun).
assert (Hno : ~ has_closure_placeholder t).
{ intros Hhas. destruct (closure_check_Throw t li Hhas) as (? & ? & ? & _ & _ & _ & Hthrow).
  congruence. }
rewrite closure_check_Return in Hclosure by done. injection Hclosure as _ <-.
apply bind_Return_inv in Hrun as (names & li3 & Hgather & Hrun).
rewrite gatherIcuPlaceholderNames_spec in Hgather. injection Hgather as <- <-.
apply bind_Return_inv in Hrun as (? & ? & [Hd1 ->]%assert_Return_inv & Hrun).
apply bind_Return_inv in Hrun as (? & ? & [Hd2 ->]%assert_Return_inv & Hrun).
apply bind_Return_inv in Hrun as (? & ? & [Hm ->]%assert_Return_inv & Hrun).
apply bind_Return_inv in Hrun as (? & ? & [-> Hex]%map_check_Return_inv & Hrun).
apply bind_Return_inv in Hrun as (? & ? & [-> Hoc]%map_check_Return_inv & Hrun).
apply for_of_Return_inv in Hrun as [-> Hkeys]; [|intros; apply keeps_assert].
unfold options_pass. split_and!; try done.
- by apply typeof_string.
- intros Htruthy. rewrite Htruthy in Hm. by apply typeof_string.
- eapply Forall_impl; [done|]. intros k Hk. cbv beta in Hk.
  apply assert_Return_inv in Hk as [Hk _]. by apply has_true.
Qed.

(** A call in uncompiled mode on which some check is not passed
    fails. *)
Lemma declare_fails t o li :
  ~ (~ has_closure_placeholder t /\ options_pass (all_names (drop_str li t)) o) ->
  fails (declareIcuTemplate false t o li).
Proof.
intros Hnot. destruct (settles_declare false t o li) as [(r & li' & Hr)|(e & li' & He)].
- exfalso. apply Hnot. by apply declare_Return_inv in Hr as (_ & _ & ? & ?).
- exists e. by rewrite He.
Qed.

End checks.

(** ** From the vocabulary of the specification to the checks *)

Section vocabulary.

Implicit Types (t : string) (o m : obj) (k field : string).

Lemma description_passes o :
  description_is_text o -> get o "description" <> VString "" ->
  truthy (get o "description") = true /\ is_text (get o "description").
Proof.
intros [_ [s Hs]] Hne. split; [|by exists s]. rewrite Hs in Hne |- *.
cbn [truthy]. destruct (String.eqb_spec s ""); [congruence|done].
Qed.

Lemma meaning_passes o :
  meaning_is_text_if_present o ->
  truthy (get o "meaning") = true -> is_text (get o "meaning").
Proof.
intros [Hmissing|Htext] Htruthy; [|done].
by rewrite get_missing in Htruthy.
Qed.

Lemma entries_pass t m (ks : list string) :
  Forall (entry_ok t m) ks <->
  Forall (fun k => k ∈ all_names t /\ is_text (get m k)) ks.
Proof.
unfold entry_ok. apply Forall_proper; [|done].
intros k. by rewrite elem_of_all_names.
Qed.

Lemma map_passes_intro t o field :
  map_ok_if_present t o field -> map_passes (all_names t) (get o field).
Proof.
intros [Hmissing|(m & Hm & Hall)] Htruthy.
- by rewrite get_missing in Htruthy.
- exists m. split; [done|]. by apply entries_pass.
Qed.

Lemma keys_pass (ks : list string) :
  Forall recognized ks <-> Forall (fun k => k ∈ VALID_OPTIONS) ks.
Proof.
apply Forall_proper; [|done]. intros k. by rewrite VALID_OPTIONS_recognized.
Qed.

End vocabulary.

(** ** Calls that reach the later checks *)

Section later_checks.

Implicit Types (t : string) (o m : obj) (k field : string) (e : AssertionError).

(** With the template and the description and meaning passed, the
    outcome of the call is that of the checks of the two maps and of the
    field names. *)
Lemma declare_front t o :
  ~ has_closure_placeholder t ->
  description_is_text o -> get o "description" <> VString "" ->
  meaning_is_text_if_present o ->
  declareIcuTemplate false t o initial
  = (((if truthy (get o "example") then
         assert (typeof (get o "example") =? "object")%string
           MSG_INVALID_EXAMPLE_MAP [get o "example"] ;;
         assertValidPlaceholderMap "example" (properties (get o "example"))
           (all_names t)
       else ret tt) ;;
      (if truthy (get o "original_code") then
         assert (typeof (get o "original_code") =? "object")%string
           MSG_INVALID_ORIGINAL_CODE_MAP [get o "original_code"] ;;
         assertValidPlaceholderMap "original_code"
           (properties (get o "original_code")) (all_names t)
       else ret tt) ;;
      for_of (Object_keys o) (fun propName =>
        assert (has VALID_OPTIONS propName) MSG_UNKNOWN_OPTION [VString propName])) ;;
     ret t) initial.
Proof.
intros Hno Hd Hne Hm.
destruct (description_passes o Hd Hne) as [Hd1 Hd2].
unfold declareIcuTemplate, assertDeclareIcuTemplateParametersAreValid.
unfold bind at 1. unfold bind at 1.
rewrite closure_check_Return by done.
unfold bind at 1. rewrite gatherIcuPlaceholderNames_spec.
rewrite bind_assert, Hd1, bind_assert.
apply typeof_string in Hd2. rewrite Hd2, bind_assert.
replace (negb (truthy (get o "meaning")) ||
         (typeof (get o "meaning") =? "string")%string) with true; [done|].
destruct (truthy (get o "meaning")) eqn:Htruthy; [|done].
symmetry. by apply typeof_string, meaning_passes.
Qed.

Lemma map_check_object mapName msg names m li :
  (if truthy (VObject m) then
     assert (typeof (VObject m) =? "object")%string msg [VObject m] ;;
     assertValidPlaceholderMap mapName (properties (VObject m)) names
   else ret tt) li
  = assertValidPlaceholderMap mapName m names li.
Proof. cbn [truthy typeof properties]. by rewrite bind_assert. Qed.

(** The failure of the check of the [example] map is the failure of the
    call. *)
Lemma declare_example_Throw t o m e :
  ~ has_closure_placeholder t ->
  description_is_text o -> get o "description" <> VString "" ->
  meaning_is_text_if_present o ->
  get o "example" = VObject m ->
  assertValidPlaceholderMap "example" m (all_names t) initial = (Throw e, initial) ->
  declareIcuTemplate false t o initial = (Throw e, initial).
Proof.
intros Hno Hd Hne Hm Hex Hthrow. rewrite declare_front by done.
apply bind_Throw, bind_Throw. by rewrite Hex, map_check_object.
Qed.

(** So is the failure of the check of the [original_code] map, when the
    [example] map passes. *)
Lemma declare_original_code_Throw t o m e :
  ~ has_closure_placeholder t ->
  description_is_text o -> get o "description" <> VString "" ->
  meaning_is_text_if_present o ->
  map_ok_if_present t o "example" ->
  get o "original_code" = VObject m ->
  assertValidPlaceholderMap "original_code" m (all_names t) initial
  = (Throw e, initial) ->
  declareIcuTemplate false t o initial = (Throw e, initial).
Proof.
intros Hno Hd Hne Hm Hex Hoc Hthrow. rewrite declare_front by done.
apply bind_Throw.
erewrite bind_Return; [|by apply map_check_Return, map_passes_intro].
apply bind_Throw. by rewrite Hoc, map_check_object.
Qed.

(** With every recognized field passed, the first unrecognized field
    name is the failure of the call. *)
Lemma declare_unknown_option t o pre k rest :
  ~ has_closure_placeholder t ->
  description_is_text o -> get o "description" <> VString "" ->
  meaning_is_text_if_present o ->
  map_ok_if_present t o "example" ->
  map_ok_if_present t o "original_code" ->
  Object_keys o = pre ++ k :: rest ->
  Forall recognized pre -> ~ recognized k ->
  declareIcuTemplate false t o initial = (Throw (unknown_option_error k), initial).
Proof.
intros Hno Hd Hne Hm Hex Hoc Hkeys Hpre Hk. rewrite declare_front by done.
apply bind_Throw.
erewrite bind_Return; [|by apply map_check_Return, map_passes_intro].
erewrite bind_Return; [|by apply map_check_Return, map_passes_intro].
eapply for_of_Throw; [done| |].
- eapply Forall_impl; [done|]. intros k' Hk'. cbv beta.
  apply VALID_OPTIONS_recognized, has_true in Hk'. unfold assert. by rewrite Hk'.
- rewrite <- VALID_OPTIONS_recognized in Hk. apply has_false in Hk.
  unfold assert. by rewrite Hk.
Qed.

End later_checks.

(** ** Two more facts for the statements below *)

(** Every name is a content of a closure-style placeholder. *)
Lemma icu_name_closure_content X : is_icu_name X = true -> closure_content X = true.
Proof.
unfold closure_content. destruct X as [|c X]; [done|]. cbn [is_icu_name].
intros [Hc HX]%andb_prop. cbn [String.eqb negb andb all_chars].
apply name_start_name_char in Hc. unfold negated, single.
rewrite (name_char_not_brace c Hc). cbn [negb andb]. clear c Hc.
induction X as [|c X IH]; [done|]. cbn [all_chars] in *.
apply andb_prop in HX as [Hc HX]. rewrite (name_char_not_brace c Hc). auto.
Qed.

Lemma names_all_names t (names : gset string) :
  (forall N, N ∈ names <-> placeholder_name_of t N) -> names = all_names t.
Proof. intros Hnames. apply set_eq. intros N. by rewrite Hnames, elem_of_all_names. Qed.

(** * The properties of the specification *)

(** ** C1: valid calls return the template *)

(** C1, as amended: in uncompiled mode, for every template without a
    closure-style placeholder and every options record whose
    [description] is present, is text and is not empty, whose [meaning]
    is text if present, whose [example] and [original_code] maps, if
    present, have only placeholder names of the template as keys and
    only text as values, and whose fields are all recognized,
    [declareIcuTemplate] returns the template unchanged. *)
Theorem valid_call_returns_template t o :
  ~ has_closure_placeholder t ->
  description_is_text o ->
  get o "description" <> VString "" ->
  meaning_is_text_if_present o ->
  map_ok_if_present t o "example" ->
  map_ok_if_present t o "original_code" ->
  Forall recognized (Object_keys o) ->
  declareIcuTemplate false t o initial = (Return t, initial).
Proof.
intros Hno Hd Hne Hm Hex Hoc Hkeys. apply declare_Return; [done|].
destruct (description_passes o Hd Hne) as [Hd1 Hd2].
split_and!; [done..|by apply meaning_passes
            |by apply map_passes_intro|by apply map_passes_intro
            |by apply keys_pass].
Qed.

(** The call of the specification: ["Hi, {NAME}!"] with a description
    and an example for [NAME]. *)
Lemma valid_call_returns_template_witness :
  declareIcuTemplate false "Hi, {NAME}!"
    [("description", VString "greets user");
     ("example", VObject [("NAME", VString "Jane")])] initial
  = (Return "Hi, {NAME}!", initial).
Proof.
apply valid_call_returns_template.
- apply exec_closure_None. reflexivity.
- split; [compute_done|by eexists].
- discriminate.
- left. compute_done.
- right. exists [("NAME", VString "Jane")]. split; [reflexivity|].
  constructor; [|constructor]. split; [split|].
  + reflexivity.
  + by exists "Hi, ", "!".
  + by exists "Jane".
- left. compute_done.
- repeat (constructor; [unfold recognized; auto|]). constructor.
Defined.

(** C1, as stated, fails: an empty description is present and is text,
    and the call with it throws. *)
Lemma empty_description_refused :
  let t := "Hi" in
  let o := [("description", VString "")] in
  ~ has_closure_placeholder t /\
  description_is_text o /\
  meaning_is_text_if_present o /\
  map_ok_if_present t o "example" /\
  map_ok_if_present t o "original_code" /\
  Forall recognized (Object_keys o) /\
  declareIcuTemplate false t o initial = (Throw no_description_error, initial).
Proof.
split_and!.
- apply exec_closure_None. reflexivity.
- split; [compute_done|by eexists].
- left. compute_done.
- left. compute_done.
- left. compute_done.
- repeat (constructor; [unfold recognized; auto|]). constructor.
- reflexivity.
Qed.

(** ** C2: closure-style placeholders are refused *)



(** ** C3: the gathered placeholder names *)

(** C3. From the state in which every call finds the module, for every
    template [gatherIcuPlaceholderNames] returns a set whose members are
    exactly the names [N] matching [[A-Za-z_][A-Za-z0-9_]*] such that
    [{N}] occurs in the template.  So two templates in which the same
    placeholders occur give the same set, in whatever order and however
    often they occur; and names differing in case are different
    members. *)
Theorem gathered_names_exact :
  (forall t,
     exists names,
       gatherIcuPlaceholderNames t initial = (Return names, initial) /\
       forall N, N ∈ names <-> placeholder_name_of t N) /\
  (forall t1 t2 names1 names2,
     gatherIcuPlaceholderNames t1 initial = (Return names1, initial) ->
     gatherIcuPlaceholderNames t2 initial = (Return names2, initial) ->
     (forall N, placeholder_name_of t1 N <-> placeholder_name_of t2 N) ->
     names1 = names2) /\
  gatherIcuPlaceholderNames "{NAME} or {name}" initial
  = (Return {[ "NAME"; "name" ]}, initial) /\
  "NAME" <> "name" /\
  gatherIcuPlaceholderNames "{B}{A}{B}, {A}" initial
  = gatherIcuPlaceholderNames "{A}{B}" initial.
Proof.
split_and!; [| |done..].
- intros t. exists (all_names t). split.
  + apply gatherIcuPlaceholderNames_spec.
  + apply elem_of_all_names.
- intros t1 t2 names1 names2 H1 H2 Hsame.
  rewrite gatherIcuPlaceholderNames_spec in H1, H2.
  injection H1 as <-. injection H2 as <-.
  apply set_eq. intros N. by rewrite !elem_of_all_names.
Qed.

Lemma gathered_names_exact_witness :
  (exists names,
     gatherIcuPlaceholderNames "Hi, {NAME}!" initial = (Return names, initial) /\
     "NAME" ∈ names) /\
  all_names "{B}{A}{B}, {A}" = all_names "{A}{B}".
Proof.
destruct gathered_names_exact as (Hexact & Hsame & _). split.
- destruct (Hexact "Hi, {NAME}!") as (names & Hrun & Hnames).
  exists names. split; [exact Hrun|].
  apply Hnames. split; [reflexivity|]. by exists "Hi, ", "!".
- apply (Hsame "{B}{A}{B}, {A}" "{A}{B}").
  + apply gatherIcuPlaceholderNames_spec.
  + apply gatherIcuPlaceholderNames_spec.
  + intros N. rewrite <- !elem_of_all_names.
    by replace (all_names "{B}{A}{B}, {A}") with (all_names "{A}{B}")
      by by vm_compute.
Defined.

(** ** C4: the description *)

(** C4. In uncompiled mode a call whose options record has no
    [description] fails, and so does a call whose [description] is
    present but is not text. *)
Theorem description_required t o li :
  (missing o "description" -> fails (declareIcuTemplate false t o li)) /\
  (present o "description" -> ~ is_text (get o "description") ->
   fails (declareIcuTemplate false t o li)).
Proof.
split.
- intros Hmissing. apply declare_fails. intros (_ & _ & [s Hs] & _).
  by rewrite get_missing in Hs.
- intros _ Hnot. apply declare_fails. by intros (_ & _ & Htext & _).
Qed.

Lemma description_required_witness :
  fails (declareIcuTemplate false "Hi" [("meaning", VString "m")] initial) /\
  fails (declareIcuTemplate false "Hi" [("description", VNumber 5)] initial).
Proof.
split.
- apply (proj1 (description_required "Hi" [("meaning", VString "m")] initial)).
  compute_done.
- apply (proj2 (description_required "Hi" [("description", VNumber 5)] initial)).
  + compute_done.
  + intros [s Hs]. discriminate Hs.
Defined.

(** ** C5: the meaning *)

(** C5, as amended: in uncompiled mode a call whose [meaning] is truthy
    (not [undefined], [null], [false], 0, [NaN] or the empty string) and
    is not text fails. *)
Theorem truthy_meaning_must_be_text t o li :
  truthy (get o "meaning") = true -> ~ is_text (get o "meaning") ->
  fails (declareIcuTemplate false t o li).
Proof.
intros Htruthy Hnot. apply declare_fails.
intros (_ & _ & _ & Hm & _). auto.
Qed.

Lemma truthy_meaning_must_be_text_witness :
  fails (declareIcuTemplate false "Hi"
           [("description", VString "d"); ("meaning", VNumber 1)] initial).
Proof.
apply truthy_meaning_must_be_text.
- reflexivity.
- intros [s Hs]. discriminate Hs.
Defined.

(** C5, as stated, fails: a [meaning] that is present and is the number
    0 is not text, and the call with it returns. *)
Lemma falsy_meaning_accepted :
  let t := "Hi" in
  let o := [("description", VString "d"); ("meaning", VNumber 0)] in
  present o "meaning" /\ ~ is_text (get o "meaning") /\
  declareIcuTemplate false t o initial = (Return t, initial) /\
  ~ fails (declareIcuTemplate false t o initial).
Proof.
split_and!.
- compute_done.
- intros [s Hs]. discriminate Hs.
- reflexivity.
- intros [e He]. discriminate He.
Qed.

(** ** C6: the example and original_code maps *)

(** C6, as amended.  For each of the [example] and [original_code]
    maps, if present as a map [m]:
    - if some key of [m] is not a placeholder name of the template or
      has a value that is not text, the call fails;
    - the check of the map goes through the keys in order and stops at
      the first such key: it throws naming the map and the key when the
      key is not a placeholder name, and naming the map, the key and the
      value when the key is a placeholder name and the value is not
      text; a map whose keys are all placeholder names with text values
      passes the check;
    - what the check of the map throws is what the call throws, when the
      template, the description, the meaning and, for [original_code],
      the [example] map are valid. *)
Theorem placeholder_maps_checked t o field m :
  field = "example" \/ field = "original_code" ->
  get o field = VObject m ->
  (~ Forall (entry_ok t m) (Object_keys m) ->
   fails (declareIcuTemplate false t o initial)) /\
  (forall names li,
     (forall N, N ∈ names <-> placeholder_name_of t N) ->
     (Forall (entry_ok t m) (Object_keys m) ->
      assertValidPlaceholderMap field m names li = (Return tt, li)) /\
     (forall pre k rest,
        Object_keys m = pre ++ k :: rest ->
        Forall (entry_ok t m) pre ->
        (~ placeholder_name_of t k ->
         assertValidPlaceholderMap field m names li
         = (Throw (unknown_placeholder_error field k), li)) /\
        (placeholder_name_of t k -> ~ is_text (get m k) ->
         assertValidPlaceholderMap field m names li
         = (Throw (invalid_value_error field k (get m k)), li)))) /\
  (forall names e,
     (forall N, N ∈ names <-> placeholder_name_of t N) ->
     ~ has_closure_placeholder t ->
     description_is_text o -> get o "description" <> VString "" ->
     meaning_is_text_if_present o ->
     (field = "original_code" -> map_ok_if_present t o "example") ->
     assertValidPlaceholderMap field m names initial = (Throw e, initial) ->
     declareIcuTemplate false t o initial = (Throw e, initial)).
Proof.
intros Hfield Hget. split_and!.
- intros Hbad. apply declare_fails. intros (_ & _ & _ & _ & Hex & Hoc & _).
  apply Hbad, entries_pass.
  destruct Hfield as [-> | ->].
  + destruct Hex as (m' & Hm' & Hall); [by rewrite Hget|].
    rewrite Hget in Hm'. injection Hm' as <-. exact Hall.
  + destruct Hoc as (m' & Hm' & Hall); [by rewrite Hget|].
    rewrite Hget in Hm'. injection Hm' as <-. exact Hall.
- intros names li ->%names_all_names. split.
  + intros Hall. by apply placeholder_map_Return, entries_pass.
  + intros pre k rest Hkeys Hpre%entries_pass. split.
    * intros Hk. eapply placeholder_map_unknown; [done..|].
      by rewrite elem_of_all_names.
    * intros Hk Hv. eapply placeholder_map_invalid; [done..| |done].
      by rewrite elem_of_all_names.
- intros names e ->%names_all_names Hno Hd Hne Hm Hex Hthrow.
  destruct Hfield as [-> | ->].
  + by eapply declare_example_Throw.
  + eapply declare_original_code_Throw; [done..|by apply Hex|done|done].
Qed.

Lemma placeholder_maps_checked_witness :
  let t := "Hi, {NAME}!" in
  let m := [("NAME", VString "Jane"); ("AGE", VString "3")] in
  let o := [("description", VString "d"); ("example", VObject m)] in
  fails (declareIcuTemplate false t o initial) /\
  declareIcuTemplate false t o initial
  = (Throw (unknown_placeholder_error "example" "AGE"), initial) /\
  assertValidPlaceholderMap "example" [("NAME", VString "Jane")] (all_names t) initial
  = (Return tt, initial).
Proof.
intros t m o.
assert (Hname : placeholder_name_of t "NAME").
{ split; [reflexivity|]. by exists "Hi, ", "!". }
assert (Hage : ~ placeholder_name_of t "AGE").
{ rewrite <- elem_of_all_names. compute_done. }
destruct (placeholder_maps_checked t o "example" m) as (Hfails & Hmap & Hcall);
  [by left|reflexivity|].
split_and!.
- apply Hfails. intros Hall. apply Forall_cons in Hall as [_ Hall].
  apply Forall_cons in Hall as [[Hall _] _]. done.
- apply (Hcall (all_names t)).
  + apply elem_of_all_names.
  + apply exec_closure_None. reflexivity.
  + split; [compute_done|by eexists].
  + discriminate.
  + left. compute_done.
  + discriminate.
  + apply (Hmap (all_names t) initial (elem_of_all_names t)) with (pre := ["NAME"]) (rest := []).
    * reflexivity.
    * constructor; [|constructor]. split; [done|by eexists].
    * done.
- destruct (placeholder_maps_checked t [("example", VObject [("NAME", VString "Jane")])]
              "example" [("NAME", VString "Jane")]) as (_ & Hmap' & _);
    [by left|reflexivity|].
  apply (Hmap' (all_names t) initial (elem_of_all_names t)).
  constructor; [|constructor]. split; [done|by eexists].
Defined.

(** C6, as stated, fails: with two keys that are not placeholder names,
    the failure names the first and not the second. *)
Lemma second_unknown_key_not_named :
  let t := "Hi" in
  let m := [("A", VString "a"); ("B", VString "b")] in
  let o := [("description", VString "d"); ("example", VObject m)] in
  get o "example" = VObject m /\
  "B" ∈ Object_keys m /\ ~ placeholder_name_of t "B" /\
  declareIcuTemplate false t o initial
  = (Throw (unknown_placeholder_error "example" "A"), initial) /\
  ~ mentions (unknown_placeholder_error "example" "A") "B".
Proof.
cbv zeta. split_and!.
- reflexivity.
- compute_done.
- rewrite <- elem_of_all_names. compute_done.
- reflexivity.
- unfold mentions. cbn [messageArgs unknown_placeholder_error]. intros Hin.
  repeat (apply elem_of_cons in Hin as [Hin|Hin]; [discriminate Hin|]).
  by apply elem_of_nil in Hin.
Qed.


(** ** C7: unrecognized fields *)

(** C7, as amended: in uncompiled mode a call whose options record has
    a field that is not one of [description], [meaning], [example] and
    [original_code] fails; when the template and the four recognized
    fields are valid, it throws naming the first unrecognized field in
    the order of the keys. *)
Theorem unrecognized_field_refused t o k :
  present o k -> ~ recognized k ->
  (forall li, fails (declareIcuTemplate false t o li)) /\
  (forall pre rest,
     ~ has_closure_placeholder t ->
     description_is_text o -> get o "description" <> VString "" ->
     meaning_is_text_if_present o ->
     map_ok_if_present t o "example" ->
     map_ok_if_present t o "original_code" ->
     Object_keys o = pre ++ k :: rest ->
     Forall recognized pre ->
     declareIcuTemplate false t o initial
     = (Throw (unknown_option_error k), initial)).
Proof.
intros Hk Hnot. split.
- intros li. apply declare_fails. intros (_ & _ & _ & _ & _ & _ & Hkeys).
  apply Hnot, VALID_OPTIONS_recognized.
  by apply (proj1 (Forall_forall _ _) Hkeys).
- intros pre rest Hno Hd Hne Hm Hex Hoc Hkeys Hpre.
  by eapply declare_unknown_option.
Qed.

Lemma unrecognized_field_refused_witness :
  declareIcuTemplate false "Hi" [("description", VString "x"); ("foo", VNumber 1)]
    initial
  = (Throw (unknown_option_error "foo"), initial).
Proof.
destruct (unrecognized_field_refused "Hi"
            [("description", VString "x"); ("foo", VNumber 1)] "foo") as [_ Hnamed].
- compute_done.
- unfold recognized. intros [H|[H|[H|H]]]; discriminate H.
- apply (Hnamed ["description"] []).
  + apply exec_closure_None. reflexivity.
  + split; [compute_done|by eexists].
  + discriminate.
  + left. compute_done.
  + left. compute_done.
  + left. compute_done.
  + reflexivity.
  + constructor; [|constructor]. unfold recognized. auto.
Defined.

(** C7, as stated, fails: without a description the failure is the
    missing description, and of two unrecognized fields only the first
    is named. *)
Lemma unrecognized_field_not_named :
  (let o := [("foo", VNumber 1)] in
   present o "foo" /\ ~ recognized "foo" /\
   declareIcuTemplate false "Hi" o initial = (Throw no_description_error, initial) /\
   ~ mentions no_description_error "foo") /\
  (let o := [("description", VString "d"); ("foo", VNumber 1); ("bar", VNumber 2)] in
   present o "bar" /\ ~ recognized "bar" /\
   declareIcuTemplate false "Hi" o initial
   = (Throw (unknown_option_error "foo"), initial) /\
   ~ mentions (unknown_option_error "foo") "bar").
Proof.
cbv zeta. split; split_and!.
- compute_done.
- unfold recognized. intros [H|[H|[H|H]]]; discriminate H.
- reflexivity.
- unfold mentions. cbn [messageArgs no_description_error]. apply not_elem_of_nil.
- compute_done.
- unfold recognized. intros [H|[H|[H|H]]]; discriminate H.
- reflexivity.
- unfold mentions. cbn [messageArgs unknown_option_error]. intros Hin.
  repeat (apply elem_of_cons in Hin as [Hin|Hin]; [discriminate Hin|]).
  by apply elem_of_nil in Hin.
Qed.

(** ** C8: compiled mode *)

(** C8. When COMPILED is set, [declareIcuTemplate] runs no check: for
    every template and every options record it returns the template
    unchanged and does not touch the state of the shared regex, also on
    a template with a closure-style placeholder and on an options record
    without a description. *)
Theorem compiled_mode_is_pass_through :
  (forall t o li, declareIcuTemplate true t o li = (Return t, li)) /\
  declareIcuTemplate true "Hi, {$X}!" [] initial = (Return "Hi, {$X}!", initial) /\
  fails (declareIcuTemplate false "Hi, {$X}!" [] initial).
Proof.
split_and!; [done..|]. by eexists.
Qed.

(** ** C9: repeated calls *)

(** C9. Whatever calls were made before, if a call of
    [declareIcuTemplate] on a template and an options record returns,
    it returns the template, and after any further calls the same call
    returns the template again: between calls the [lastIndex] of the
    shared regex is 0, so no call depends on an earlier one. *)
Theorem repeated_calls_agree c before t o r li after :
  declareIcuTemplate c t o (after_calls c before initial) = (Return r, li) ->
  r = t /\ li = initial /\
  declareIcuTemplate c t o (after_calls c after li) = (Return t, initial).
Proof.
rewrite after_calls_initial. intros Hcall.
assert (Hli : li = initial).
{ pose proof (keeps_declare c t o) as Hkeeps. unfold keeps in Hkeeps.
  by rewrite Hcall in Hkeeps. }
assert (Hr : r = t).
{ destruct c; [by injection Hcall|].
  by apply declare_Return_inv in Hcall as (-> & _). }
subst. by rewrite after_calls_initial.
Qed.

Lemma repeated_calls_agree_witness :
  let t := "Hi, {NAME}!" in
  let o := [("description", VString "greets user");
            ("example", VObject [("NAME", VString "Jane")])] in
  declareIcuTemplate false t o
    (after_calls false [("{A}{B}{$C}", []); ("{A}{B}", o); (t, o)] initial)
  = (Return t, initial).
Proof.
intros t o.
apply (repeated_calls_agree false [("{X}", [])] t o t initial).
reflexivity.
Defined.

(** ** C10: the closure-style placeholder check *)

(** C10. The closure-style placeholder check throws exactly when the
    template contains [{$], one or more characters other than [}], and
    [}]; otherwise it returns.  The content need not be a name: the
    template [{$ !}] is refused.  The unterminated [{$NAME] passes. *)
Theorem closure_check_fails_iff :
  (forall t li,
     fails (assertNoClosureStylePlaceholdersInIcuTemplate t li)
     <-> has_closure_placeholder t) /\
  (forall t li,
     assertNoClosureStylePlaceholdersInIcuTemplate t li = (Return tt, li)
     <-> ~ has_closure_placeholder t) /\
  (is_icu_name " !" = false /\
   assertNoClosureStylePlaceholdersInIcuTemplate "{$ !}" initial
   = (Throw (closure_placeholder_error "{$ !}" "{$ !}"), initial)) /\
  assertNoClosureStylePlaceholdersInIcuTemplate "{$NAME" initial
  = (Return tt, initial).
Proof.
split_and!; [| |done..].
- intros t li. split.
  + intros [e He]. destruct (has_closure_placeholder_dec t) as [|Hno]; [done|].
    by rewrite closure_check_Return in He.
  + intros Hhas.
    destruct (closure_check_Throw t li Hhas) as (pre & X & post & _ & _ & _ & ->).
    by eexists.
- intros t li. split.
  + intros Hret Hhas.
    destruct (closure_check_Throw t li Hhas) as (pre & X & post & _ & _ & _ & Hthrow).
    congruence.
  + apply closure_check_Return.
Qed.

(** * Further properties of the module *)

(** ** Where a failure comes from *)

Section failures.

Context {A B : Type}.
Implicit Types (li : lastIndex) (e : AssertionError).

Lemma bind_Throw_inv (m : M A) (f : A -> M B) li e li' :
  bind m f li = (Throw e, li') ->
  m li = (Throw e, li') \/
  exists a li1, m li = (Return a, li1) /\ f a li1 = (Throw e, li').
Proof.
unfold bind. destruct (m li) as [[a|e1|] li1]; [|by intros [= -> ->]; left|done].
intros Hf. right. by exists a, li1.
Qed.

Lemma bind_assoc {C} (m : M A) (f : A -> M B) (g : B -> M C) li :
  bind (bind m f) g li = bind m (fun a => bind (f a) g) li.
Proof. unfold bind. by destruct (m li) as [[a|e|] li1]. Qed.

End failures.

Lemma assert_Throw_inv c msg args li e li' :
  assert c msg args li = (Throw e, li') ->
  c = false /\ e = {| messagePattern := msg; messageArgs := args |} /\ li' = li.
Proof. unfold assert. destruct c; [done|]. by intros [= <- <-]. Qed.

Lemma for_of_Throw_inv {A} (xs : list A) body li e li' :
  (forall x, keeps li (body x)) ->
  for_of xs body li = (Throw e, li') ->
  li' = li /\
  exists pre x rest,
    xs = pre ++ x :: rest /\
    Forall (fun y => body y li = (Return tt, li)) pre /\
    body x li = (Throw e, li).
Proof.
intros Hkeeps. induction xs as [|x xs IH]; cbn [for_of]; [done|].
intros [Hx|(u & li1 & Hx & Hxs)]%bind_Throw_inv.
- pose proof (Hkeeps x) as Hk. unfold keeps in Hk. rewrite Hx in Hk.
  simpl in Hk. subst li'. split; [done|]. by exists [], x, xs.
- pose proof (Hkeeps x) as Hk. unfold keeps in Hk. rewrite Hx in Hk.
  simpl in Hk. subst li1. destruct u.
  destruct (IH Hxs) as (-> & pre & y & rest & -> & Hpre & Hy).
  split; [done|]. exists (x :: pre), y, rest. split_and!; [done| |done].
  by constructor.
Qed.

Lemma placeholder_map_Throw_inv mapName (m : obj) (names : gset string) li e li' :
  assertValidPlaceholderMap mapName m names li = (Throw e, li') ->
  li' = li /\
  exists pre k rest,
    Object_keys m = pre ++ k :: rest /\
    Forall (fun k' => k' ∈ names /\ is_text (get m k')) pre /\
    (((k ∉ names) /\ e = unknown_placeholder_error mapName k) \/
     (k ∈ names /\ ~ is_text (get m k) /\
      e = invalid_value_error mapName k (get m k))).
Proof.
intros Hrun. apply for_of_Throw_inv in Hrun as (-> & pre & k & rest & Hkeys & Hpre & Hk).
2:{ intros k. apply keeps_bind; [apply keeps_assert|]. intros _. apply keeps_assert. }
split; [done|]. exists pre, k, rest. split_and!; [done| |].
- eapply Forall_impl; [done|]. intros k' Hk'. cbv beta in Hk'.
  apply bind_Return_inv in Hk' as (u & li1 & [Hc1 ->]%assert_Return_inv & Hc2).
  apply assert_Return_inv in Hc2 as [Hc2 _].
  split; [by apply has_true|by apply typeof_string].
- cbv beta in Hk.
  apply bind_Throw_inv in Hk as [Hk|(u & li1 & [Hc1 ->]%assert_Return_inv & Hk)].
  + apply assert_Throw_inv in Hk as (Hc & -> & _). left.
    split; [by apply has_false|done].
  + apply assert_Throw_inv in Hk as (Hc & -> & _). right.
    split_and!; [by apply has_true|by apply typeof_not_string|done].
Qed.

Lemma options_accepted_pass t o :
  options_accepted t o <-> options_pass (all_names t) o.
Proof.
unfold options_accepted, options_pass, map_accepted, map_passes.
rewrite keys_pass.
assert (Hmap : forall v,
  (truthy v = true ->
   exists m, v = VObject m /\ Forall (entry_ok t m) (Object_keys m)) <->
  (truthy v = true ->
   exists m, v = VObject m /\
     Forall (fun k => k ∈ all_names t /\ is_text (get m k)) (Object_keys m))).
{ intros v. split; intros Hv Htruthy; destruct (Hv Htruthy) as (m & -> & Hall);
    exists m; (split; [done|]); by apply entries_pass. }
by rewrite !Hmap.
Qed.

(** ** X1: the check of a map, in full *)

(** X1. [assertValidPlaceholderMap] returns exactly when every key of
    the map is in the set of names and has a text value.  When it
    throws, it does so at a key of the map before which every key is in
    the set with a text value: naming the map and the key when the key
    is not in the set, and the map, the key and the value when the key
    is in the set and its value is not text.  It never changes the
    state. *)
Theorem placeholder_map_check_outcome mapName (m : obj) (names : gset string) li :
  (assertValidPlaceholderMap mapName m names li = (Return tt, li) <->
   Forall (fun k => k ∈ names /\ is_text (get m k)) (Object_keys m)) /\
  (forall e li',
     assertValidPlaceholderMap mapName m names li = (Throw e, li') ->
     li' = li /\
     exists pre k rest,
       Object_keys m = pre ++ k :: rest /\
       Forall (fun k' => k' ∈ names /\ is_text (get m k')) pre /\
       (((k ∉ names) /\ e = unknown_placeholder_error mapName k) \/
        (k ∈ names /\ ~ is_text (get m k) /\
         e = invalid_value_error mapName k (get m k)))).
Proof.
split.
- split.
  + by intros [_ Hall]%placeholder_map_Return_inv.
  + apply placeholder_map_Return.
- intros e li'. apply placeholder_map_Throw_inv.
Qed.

Lemma placeholder_map_check_outcome_witness :
  let m := [("NAME", VString "Jane"); ("AGE", VNumber 3); ("X", VString "x")] in
  exists pre k rest,
    Object_keys m = pre ++ k :: rest /\
    (((k ∉ ({[ "NAME"; "AGE" ]} : gset string)) /\
      invalid_value_error "example" "AGE" (VNumber 3)
      = unknown_placeholder_error "example" k) \/
     (k ∈ ({[ "NAME"; "AGE" ]} : gset string) /\ ~ is_text (get m k) /\
      invalid_value_error "example" "AGE" (VNumber 3)
      = invalid_value_error "example" k (get m k))).
Proof.
intros m.
destruct (proj2 (placeholder_map_check_outcome "example" m {[ "NAME"; "AGE" ]} initial)
            (invalid_value_error "example" "AGE" (VNumber 3)) initial)
  as (_ & pre & k & rest & Hkeys & _ & Hk); [reflexivity|].
by exists pre, k, rest.
Defined.

(** ** X2: the calls that return *)

(** X2. In uncompiled mode a call returns the template exactly when the
    template has no closure-style placeholder and the options record is
    accepted: the description is a non-empty text; the meaning is falsy
    or text; each of the two maps is falsy or an object whose keys are
    placeholder names of the template with text values; every field
    name is recognized. *)
Theorem call_returns_iff t o :
  declareIcuTemplate false t o initial = (Return t, initial) <->
  ~ has_closure_placeholder t /\ options_accepted t o.
Proof.
rewrite options_accepted_pass. split.
- by intros (_ & _ & Hno & Hpass)%declare_Return_inv.
- intros [Hno Hpass]. by apply declare_Return.
Qed.

(** ** X3: a call returns its template or throws *)

(** X3. In either mode and from any state of the shared regex, a call
    ends: it returns, and then what it returns is the template it was
    given, or it throws.  The loop over the matches never needs more
    than its [length + 1] turns. *)
Theorem call_returns_template_or_throws c t o li :
  (exists li', declareIcuTemplate c t o li = (Return t, li')) \/
  (exists e li', declareIcuTemplate c t o li = (Throw e, li')).
Proof.
destruct (settles_declare c t o li) as [(r & li' & Hr)|Hthrow]; [left|by right].
exists li'. destruct c.
- by injection Hr as <- <-.
- by apply declare_Return_inv in Hr as Hinv; destruct Hinv as (-> & _).
Qed.

(** ** X4: more placeholders keep a call valid *)

(** X4. If a call returns for a template, it returns for every template
    without closure-style placeholders that has at least the same
    placeholder names: the options need not mention every placeholder,
    and adding placeholders to a template never invalidates them. *)
Theorem more_placeholders_keep_validity t t' o :
  declareIcuTemplate false t o initial = (Return t, initial) ->
  ~ has_closure_placeholder t' ->
  (forall N, placeholder_name_of t N -> placeholder_name_of t' N) ->
  declareIcuTemplate false t' o initial = (Return t', initial).
Proof.
intros (_ & _ & _ & Hpass)%declare_Return_inv Hno Hmore.
apply declare_Return; [done|].
apply options_accepted_pass. apply options_accepted_pass in Hpass.
destruct Hpass as (Hd1 & Hd2 & Hm & Hex & Hoc & Hkeys).
assert (Hmap : forall v, map_accepted t v -> map_accepted t' v).
{ intros v Hv Htruthy. destruct (Hv Htruthy) as (m & -> & Hall).
  exists m. split; [done|]. eapply Forall_impl; [done|].
  intros k [Hk Hvk]. split; [by apply Hmore|done]. }
split_and!; auto.
Qed.

Lemma more_placeholders_keep_validity_witness :
  let o := [("description", VString "greets user");
            ("example", VObject [("NAME", VString "Jane")])] in
  declareIcuTemplate false "Hi, {NAME}! You are {AGE}." o initial
  = (Return "Hi, {NAME}! You are {AGE}.", initial).
Proof.
intros o. apply (more_placeholders_keep_validity "Hi, {NAME}!").
- reflexivity.
- apply exec_closure_None. reflexivity.
- intros N. rewrite <- !elem_of_all_names.
  assert (Hsub : all_names "Hi, {NAME}!" ⊆ all_names "Hi, {NAME}! You are {AGE}.")
    by compute_done.
  apply Hsub.
Defined.

(** ** X5: gathering from any [lastIndex] *)

Lemma elem_of_all_names_from t li N :
  N ∈ all_names (drop_str li t) <->
  is_icu_name N = true /\
  exists pre post,
    t = pre +:+ icu_placeholder N +:+ post /\ li <= String.length pre.
Proof.
rewrite elem_of_all_names. unfold placeholder_name_of, occurs_in.
destruct (Nat.le_gt_cases li (String.length t)) as [Hle|Hgt].
- destruct (drop_str_split li t Hle) as (pre0 & Ht & Hlen). split.
  + intros (HN & pre & post & Hdrop). split; [done|].
    exists (pre0 +:+ pre), post. split.
    * rewrite Ht at 1. by rewrite Hdrop, app_assoc.
    * rewrite length_app. lia.
  + intros (HN & pre & post & Hpre & Hli). split; [done|].
    rewrite Hpre in Ht at 1. symmetry in Ht.
    destruct (app_eq_app_lt pre0 _ pre _ Ht) as (mid & -> & Hmid); [lia|].
    by exists mid, post.
- rewrite drop_str_ge by lia. split.
  + intros (_ & pre & post & Hnil). by destruct pre.
  + intros (_ & pre & post & -> & Hli). rewrite length_app in Hgt. lia.
Qed.

(** X5. Whatever [lastIndex] the shared regex was left with,
    [gatherIcuPlaceholderNames] returns, and leaves [lastIndex] at 0;
    the set it returns holds exactly the names of the placeholders that
    begin at or behind that [lastIndex] (none when it lies behind the
    end of the template). *)
Theorem gather_from_lastIndex t li :
  exists found,
    gatherIcuPlaceholderNames t li = (Return found, 0) /\
    forall N,
      N ∈ found <->
      is_icu_name N = true /\
      exists pre post,
        t = pre +:+ icu_placeholder N +:+ post /\ li <= String.length pre.
Proof.
exists (all_names (drop_str li t)). split.
- apply gatherIcuPlaceholderNames_spec.
- apply elem_of_all_names_from.
Qed.

(** ** X6: the state of the shared regex after a call *)

(** X6. A call in compiled mode, and a call refused for a closure-style
    placeholder, leave [lastIndex] as they found it; every other call
    leaves it at 0, whatever it was before and whether the call returns
    or throws. *)
Theorem lastIndex_after_call c t o li :
  (c = true \/ has_closure_placeholder t ->
   snd (declareIcuTemplate c t o li) = li) /\
  (c = false -> ~ has_closure_placeholder t ->
   snd (declareIcuTemplate c t o li) = 0).
Proof.
split.
- intros [-> | Hhas]; [done|]. destruct c; [done|].
  destruct (closure_check_Throw t li Hhas) as (? & ? & ? & _ & _ & _ & Hthrow).
  unfold declareIcuTemplate, assertDeclareIcuTemplateParametersAreValid.
  by rewrite (bind_Throw _ _ _ _ _ (bind_Throw _ _ _ _ _ Hthrow)).
- intros -> Hno.
  unfold declareIcuTemplate, assertDeclareIcuTemplateParametersAreValid.
  rewrite bind_assoc.
  erewrite bind_Return; [|by apply closure_check_Return]. cbv beta.
  rewrite bind_assoc.
  erewrite bind_Return; [|apply gatherIcuPlaceholderNames_spec]. cbv beta.
  match goal with |- snd (?m 0) = 0 => change (keeps 0 m) end.
  repeat first
    [ apply keeps_assert | apply keeps_placeholder_map | apply keeps_ret
    | apply keeps_for_of; intros
    | apply keeps_bind; [|intros]
    | match goal with |- keeps _ (if ?b then _ else _) => destruct b end ].
Qed.

Lemma lastIndex_after_call_witness :
  snd (declareIcuTemplate false "{A}{$B}" [] 2) = 2 /\
  snd (declareIcuTemplate false "{A}{B}" [] 2) = 0.
Proof.
split.
- apply (proj1 (lastIndex_after_call false "{A}{$B}" [] 2)). right.
  exists "B". split; [reflexivity|]. by exists "{A}", "".
- apply (proj2 (lastIndex_after_call false "{A}{B}" [] 2)); [reflexivity|].
  apply exec_closure_None. reflexivity.
Defined.

(** ** X7: which closure-style placeholder is named *)

(** X7. The failure of a call on a template with closure-style
    placeholders names the leftmost of them: no closure-style
    placeholder begins in front of the one named. *)
Theorem closure_failure_names_leftmost t o li :
  has_closure_placeholder t ->
  exists pre Y post,
    t = pre +:+ closure_placeholder Y +:+ post /\
    closure_content Y = true /\
    declareIcuTemplate false t o li
    = (Throw (closure_placeholder_error (closure_placeholder Y) t), li) /\
    forall pre1 X1 post1,
      t = pre1 +:+ closure_placeholder X1 +:+ post1 ->
      closure_content X1 = true ->
      String.length pre <= String.length pre1.
Proof.
intros Hhas.
destruct (closure_check_Throw t li Hhas) as (pre & Y & post & Ht & HY & Hmin & Hthrow).
exists pre, Y, post. split_and!; [done..| |].
- unfold declareIcuTemplate, assertDeclareIcuTemplateParametersAreValid.
  apply bind_Throw. by apply bind_Throw.
- intros pre1 X1 post1 Ht1 HX1. apply Nat.nlt_ge. intros Hlt.
  specialize (Hmin pre1 _ Ht1 Hlt). by rewrite closure_prefix_app in Hmin.
Qed.

Lemma closure_failure_names_leftmost_witness :
  exists pre Y post,
    "a{$x}b{$y}" = pre +:+ closure_placeholder Y +:+ post /\
    String.length pre <= 1.
Proof.
destruct (closure_failure_names_leftmost "a{$x}b{$y}" [] initial)
  as (pre & Y & post & Ht & _ & _ & Hleft).
- exists "x". split; [reflexivity|]. by exists "a", "b{$y}".
- exists pre, Y, post. split; [done|].
  apply (Hleft "a" "x" "b{$y}"); reflexivity.
Defined.

(** ** X8, X9, X10: the failures of the description, the meaning and the
    shape of the maps *)

(** Runs a call on a template without closure-style placeholders up to
    the first check of the options record. *)
Ltac enter_checks :=
  unfold declareIcuTemplate, assertDeclareIcuTemplateParametersAreValid;
  rewrite bind_assoc;
  (erewrite bind_Return; [|by apply closure_check_Return]); cbv beta;
  rewrite bind_assoc;
  (erewrite bind_Return; [|apply gatherIcuPlaceholderNames_spec]); cbv beta.

Lemma bind_assert_assoc {B C} c msg args (k : M B) (g : B -> M C) li :
  bind (assert c msg args ;; k) g li
  = if c then bind k g li
    else (Throw {| messagePattern := msg; messageArgs := args |}, li).
Proof. rewrite bind_assoc, bind_assert. done. Qed.

(** X8. On a template without closure-style placeholders, a falsy
    description (missing, [undefined], [null], [false], 0, [NaN] or the
    empty string) makes the call throw the failure that no description
    was supplied, and a truthy description that is not text makes it
    throw the failure of an invalid description, naming the value;
    whatever the other fields are. *)
Theorem description_failures t o li :
  ~ has_closure_placeholder t ->
  (truthy (get o "description") = false ->
   declareIcuTemplate false t o li = (Throw no_description_error, 0)) /\
  (truthy (get o "description") = true -> ~ is_text (get o "description") ->
   declareIcuTemplate false t o li
   = (Throw (invalid_description_error (get o "description")), 0)).
Proof.
intros Hno. split.
- intros Hd. enter_checks. by rewrite bind_assert_assoc, Hd.
- intros Hd Hnot%typeof_not_string. enter_checks.
  by rewrite bind_assert_assoc, Hd, bind_assert_assoc, Hnot.
Qed.

Lemma description_failures_witness :
  declareIcuTemplate false "Hi" [("description", VNull); ("foo", VNumber 1)] initial
  = (Throw no_description_error, 0) /\
  declareIcuTemplate false "Hi" [("description", VBool true)] initial
  = (Throw (invalid_description_error (VBool true)), 0).
Proof.
assert (Hno : ~ has_closure_placeholder "Hi")
  by (apply exec_closure_None; reflexivity).
split.
- by apply (proj1 (description_failures "Hi" _ initial Hno)).
- apply (proj2 (description_failures "Hi" [("description", VBool true)] initial Hno)).
  + reflexivity.
  + intros [s Hs]. discriminate Hs.
Defined.

(** X9. On a template without closure-style placeholders and with a
    description that is a non-empty text, a truthy meaning that is not
    text makes the call throw the failure of an invalid meaning, naming
    the value; whatever the maps and the other fields are. *)
Theorem meaning_failure t o li :
  ~ has_closure_placeholder t ->
  truthy (get o "description") = true -> is_text (get o "description") ->
  truthy (get o "meaning") = true -> ~ is_text (get o "meaning") ->
  declareIcuTemplate false t o li
  = (Throw (invalid_meaning_error (get o "meaning")), 0).
Proof.
intros Hno Hd1 Hd2%typeof_string Hm1 Hm2%typeof_not_string. enter_checks.
by rewrite bind_assert_assoc, Hd1, bind_assert_assoc, Hd2, bind_assert_assoc, Hm1, Hm2.
Qed.

Lemma meaning_failure_witness :
  declareIcuTemplate false "Hi"
    [("description", VString "d"); ("meaning", VNumber 7); ("foo", VNull)] initial
  = (Throw (invalid_meaning_error (VNumber 7)), 0).
Proof.
apply (meaning_failure "Hi"
         [("description", VString "d"); ("meaning", VNumber 7); ("foo", VNull)]).
- apply exec_closure_None. reflexivity.
- reflexivity.
- by exists "d".
- reflexivity.
- intros [s Hs]. discriminate Hs.
Defined.

(** X10. With the template, the description and the meaning valid, an
    [example] that is truthy and is not an object (a text, a number, a
    function) makes the call throw the failure of an invalid example
    map, naming the value; and with an accepted [example], so does an
    [original_code] that is truthy and not an object, with its own
    failure. *)
Theorem map_must_be_object t o :
  ~ has_closure_placeholder t ->
  description_is_text o -> get o "description" <> VString "" ->
  meaning_is_text_if_present o ->
  (truthy (get o "example") = true -> typeof (get o "example") <> "object" ->
   declareIcuTemplate false t o initial
   = (Throw (invalid_example_map_error (get o "example")), initial)) /\
  (map_accepted t (get o "example") ->
   truthy (get o "original_code") = true ->
   typeof (get o "original_code") <> "object" ->
   declareIcuTemplate false t o initial
   = (Throw (invalid_original_code_map_error (get o "original_code")), initial)).
Proof.
intros Hno Hd Hne Hm. rewrite declare_front by done. split.
- intros Htruthy Htype%String.eqb_neq.
  apply bind_Throw, bind_Throw. by rewrite Htruthy, bind_assert, Htype.
- intros Hex Htruthy Htype%String.eqb_neq. apply bind_Throw.
  erewrite bind_Return.
  + apply bind_Throw. by rewrite Htruthy, bind_assert, Htype.
  + apply map_check_Return. intros Hv.
    destruct (Hex Hv) as (m & -> & Hall). exists m. split; [done|].
    by apply entries_pass.
Qed.

Lemma map_must_be_object_witness :
  declareIcuTemplate false "Hi, {NAME}!"
    [("description", VString "d"); ("example", VString "Jane")] initial
  = (Throw (invalid_example_map_error (VString "Jane")), initial) /\
  declareIcuTemplate false "Hi, {NAME}!"
    [("description", VString "d"); ("original_code", VFunction)] initial
  = (Throw (invalid_original_code_map_error VFunction), initial).
Proof.
assert (Hno : ~ has_closure_placeholder "Hi, {NAME}!")
  by (apply exec_closure_None; reflexivity).
split.
- apply (proj1 (map_must_be_object "Hi, {NAME}!"
           [("description", VString "d"); ("example", VString "Jane")]
           Hno ltac:(split; [compute_done|by eexists]) ltac:(discriminate)
           ltac:(left; compute_done)));
    [reflexivity|discriminate].
- apply (proj2 (map_must_be_object "Hi, {NAME}!"
           [("description", VString "d"); ("original_code", VFunction)]
           Hno ltac:(split; [compute_done|by eexists]) ltac:(discriminate)
           ltac:(left; compute_done)));
    [discriminate|reflexivity|discriminate].
Defined.

(** ** X11: every failure of a call *)

Lemma map_check_Throw_inv t mapName msg (v : value) li e li' :
  (if truthy v then
     assert (typeof v =? "object")%string msg [v] ;;
     assertValidPlaceholderMap mapName (properties v) (all_names t)
   else ret tt) li = (Throw e, li') ->
  li' = li /\
  map_failure t mapName v {| messagePattern := msg; messageArgs := [v] |} e.
Proof.
unfold map_failure. destruct (truthy v) eqn:Htruthy; [|done].
intros [Hthrow|(u & li1 & [Hobj ->]%assert_Return_inv & Hmap)]%bind_Throw_inv.
- apply assert_Throw_inv in Hthrow as (Htype%String.eqb_neq & -> & ->).
  split; [done|]. by left.
- apply placeholder_map_Throw_inv in Hmap
    as (-> & pre & k & rest & Hkeys & _ & Hk).
  split; [done|]. right. exists (properties v), k.
  split_and!; [by apply truthy_object| |].
  + rewrite Hkeys. set_solver.
  + unfold map_failure_at. rewrite <- elem_of_all_names.
    destruct Hk as [[Hk ->]|(Hk & Hv & ->)]; [by left|by right].
Qed.

(** X11. In compiled mode a call never throws.  In uncompiled mode a
    call throws nothing but: the closure-style placeholder failure, for
    a placeholder of the template; the missing and the invalid
    description failures; the invalid meaning failure, for a truthy
    meaning; for each map, the failure of a truthy value that is not an
    object, the unknown placeholder failure for a key of the map that is
    not a placeholder name of the template, and the invalid value
    failure for a key of the map whose value is not text; and the
    unknown option failure, for a field of the record that is not
    recognized. *)
Theorem failures_classified c t o e li :
  declareIcuTemplate c t o initial = (Throw e, li) ->
  c = false /\ li = initial /\ known_failure t o e.
Proof.
destruct c; [done|]. intros Hrun.
assert (Hli : li = initial).
{ pose proof (keeps_declare false t o) as Hk. unfold keeps in Hk.
  by rewrite Hrun in Hk. }
split_and!; [done..|]. unfold known_failure.
unfold declareIcuTemplate, assertDeclareIcuTemplateParametersAreValid in Hrun.
apply bind_Throw_inv in Hrun as [Hrun|(? & ? & _ & [=])].
apply bind_Throw_inv in Hrun as [Hclosure|(u & li1 & Hclosure & Hrun)].
{ left. destruct (has_closure_placeholder_dec t) as [Hhas|Hno].
  - destruct (closure_check_Throw t initial Hhas)
      as (pre & X & post & Ht & HX & _ & Hthrow).
    exists X. split_and!; [done|by exists pre, post|]. congruence.
  - by rewrite closure_check_Return in Hclosure. }
right.
assert (li1 = initial) as ->.
{ pose proof (keeps_closure_check t initial) as Hk. unfold keeps in Hk.
  by rewrite Hclosure in Hk. }
apply bind_Throw_inv in Hrun as [Hg|(found & li2 & Hg & Hrun)];
  rewrite gatherIcuPlaceholderNames_spec in Hg; [done|].
injection Hg as <- <-.
apply bind_Throw_inv in Hrun as [Hd|(? & ? & [Hd1 ->]%assert_Return_inv & Hrun)].
{ left. by apply assert_Throw_inv in Hd as (Hd & -> & _). }
right.
apply bind_Throw_inv in Hrun as [Hd|(? & ? & [Hd2 ->]%assert_Return_inv & Hrun)].
{ left. apply assert_Throw_inv in Hd as (Hd & -> & _).
  split; [by apply typeof_not_string|done]. }
right.
apply bind_Throw_inv in Hrun as [Hm|(? & ? & [Hm ->]%assert_Return_inv & Hrun)].
{ left. apply assert_Throw_inv in Hm as (Hm & -> & _).
  apply orb_false_elim in Hm as [Hm1%negb_false_iff Hm2].
  split_and!; [done|by apply typeof_not_string|done]. }
right.
apply bind_Throw_inv in Hrun as [Hex|(? & ? & [-> _]%map_check_Return_inv & Hrun)].
{ left. by apply map_check_Throw_inv in Hex as [_ Hex]. }
right.
apply bind_Throw_inv in Hrun as [Hoc|(? & ? & [-> _]%map_check_Return_inv & Hrun)].
{ left. by apply map_check_Throw_inv in Hoc as [_ Hoc]. }
right.
apply for_of_Throw_inv in Hrun as (_ & pre & k & rest & Hkeys & _ & Hk);
  [|intros; apply keeps_assert].
apply assert_Throw_inv in Hk as (Hk%has_false & -> & _).
exists k. split_and!; [|by rewrite <- VALID_OPTIONS_recognized|done].
unfold present. rewrite Hkeys. set_solver.
Qed.

Lemma failures_classified_witness :
  known_failure "Hi, {NAME}!"
    [("description", VString "d"); ("example", VObject [("AGE", VString "3")])]
    (unknown_placeholder_error "example" "AGE").
Proof.
apply (failures_classified false "Hi, {NAME}!"
         [("description", VString "d"); ("example", VObject [("AGE", VString "3")])]
         (unknown_placeholder_error "example" "AGE") initial).
reflexivity.
Defined.

(** ** X12: templates put together *)


